(** * Sales analysis dashboard: a shallow embedding of [streamlit_app.py]

    The program is one Streamlit script.  Its data-processing core is
    - [clean_price], the amount normaliser (lines 57-65 and 291-300),
    - [extract_paren] and [extract_prefix], the category key extractors
      (lines 69-71 and 194-199),
    - the column check of [load_and_preprocess_from_path] (lines 44-54),
    - the per-group sums and the previous/current comparison of the
      two-file report (lines 138-142 and 251-257),
    - the metrics of the single-file report (lines 438-459).

    A Python [str] is a sequence of code points.  A Rocq [string] here
    holds its UTF-8 encoding (the encoding of the script and of its data
    files), and the code that looks at characters ([str.strip], the [\d]
    of [re], [float()]) works on the decoded code points.  Cell values are
    [pyval]s.  The floats the normaliser produces are integer-valued:
    [float()] of a digit string is that integer rounded to the nearest
    double, or an infinity past the largest double, and the sums of such
    floats ([fadd]) round the same way.  The comparison and metric code is
    modelled over integer amounts ([Z]) and rationals ([Q]); this exact
    arithmetic is the float64 arithmetic of the code while the sums stay
    within 2^53 (see [groupby_fsum_exact]). *)

From Stdlib Require Import String Ascii ZArith QArith List Bool Lia.
From Stdlib Require Import Numbers.DecimalString Numbers.DecimalN.
From Stdlib Require Import Permutation Sorted OrdersEx.
Import ListNotations.
Open Scope Z_scope.
Open Scope string_scope.

(** ** Python values *)

(** A Python float, restricted to the values the program produces. *)
Inductive pyfloat :=
| Fin (z : Z)            (* an integer-valued finite float *)
| PosInf
| NegInf
| NaN.

(** A cell value of a pandas column: a string, an int or a float
    (a missing cell is the float nan). *)
Inductive pyval :=
| PStr (s : string)
| PInt (z : Z)
| PFloat (f : pyfloat).

(** ** Bytes *)

Definition code (c : ascii) : nat := nat_of_ascii c.

Definition lower (c : ascii) : ascii :=
  let n := code c in
  if ((65 <=? n) && (n <=? 90))%nat then ascii_of_nat (n + 32)%nat else c.

Fixpoint lower_str (s : string) : string :=
  match s with
  | EmptyString => EmptyString
  | String c s' => String (lower c) (lower_str s')
  end.

Fixpoint all_chars (p : ascii -> bool) (s : string) : bool :=
  match s with
  | EmptyString => true
  | String c s' => p c && all_chars p s'
  end.

Fixpoint any_char (p : ascii -> bool) (s : string) : bool :=
  match s with
  | EmptyString => false
  | String c s' => p c || any_char p s'
  end.

(** ** Code points *)

Definition byte (c : ascii) : N := N_of_ascii c.

(** A continuation byte 10xxxxxx, and its six low bits. *)
Definition is_cont (c : ascii) : bool := (128 <=? byte c)%N && (byte c <? 192)%N.

Definition cbits (c : ascii) : N := (byte c - 128)%N.

(** UTF-8 decoding; a byte that does not begin a well-formed sequence
    reads as U+FFFD. *)
Fixpoint decode (s : string) : list N :=
  match s with
  | EmptyString => []
  | String c s1 =>
      let b := byte c in
      if (b <? 128)%N then b :: decode s1
      else if (194 <=? b)%N && (b <? 224)%N then
        match s1 with
        | String c1 s2 =>
            if is_cont c1 then ((b - 192) * 64 + cbits c1)%N :: decode s2
            else 65533%N :: decode s1
        | EmptyString => 65533%N :: decode s1
        end
      else if (224 <=? b)%N && (b <? 240)%N then
        match s1 with
        | String c1 (String c2 s3) =>
            if is_cont c1 && is_cont c2 then
              ((b - 224) * 4096 + cbits c1 * 64 + cbits c2)%N :: decode s3
            else 65533%N :: decode s1
        | _ => 65533%N :: decode s1
        end
      else if (240 <=? b)%N && (b <? 245)%N then
        match s1 with
        | String c1 (String c2 (String c3 s4)) =>
            if is_cont c1 && is_cont c2 && is_cont c3 then
              ((b - 240) * 262144 + cbits c1 * 4096 + cbits c2 * 64 + cbits c3)%N
              :: decode s4
            else 65533%N :: decode s1
        | _ => 65533%N :: decode s1
        end
      else 65533%N :: decode s1
  end.

(** UTF-8 encoding of a code point and of a sequence of code points. *)
Definition encode_cp (u : N) : string :=
  let b n := ascii_of_N n in
  if (u <? 128)%N then String (b u) EmptyString
  else if (u <? 2048)%N then
    String (b (192 + u / 64)%N) (String (b (128 + u mod 64)%N) EmptyString)
  else if (u <? 65536)%N then
    String (b (224 + u / 4096)%N)
      (String (b (128 + (u / 64) mod 64)%N) (String (b (128 + u mod 64)%N) EmptyString))
  else
    String (b (240 + u / 262144)%N)
      (String (b (128 + (u / 4096) mod 64)%N)
        (String (b (128 + (u / 64) mod 64)%N) (String (b (128 + u mod 64)%N) EmptyString))).

Fixpoint encode (l : list N) : string :=
  match l with
  | [] => EmptyString
  | u :: l' => encode_cp u ++ encode l'
  end.

(** [str.isspace], the characters [str.strip()] removes. *)
Definition space_points : list N :=
  [9; 10; 11; 12; 13; 28; 29; 30; 31; 32; 133; 160; 5760;
   8192; 8193; 8194; 8195; 8196; 8197; 8198; 8199; 8200; 8201; 8202;
   8232; 8233; 8239; 8287; 12288]%N.

Definition is_space (u : N) : bool := existsb (N.eqb u) space_points.

(** The blanks [float()] ignores around a number: it turns every
    non-ASCII [str.isspace] character into a space and then skips
    [ \t\n\v\f\r], so the separators U+001C-U+001F are not skipped. *)
Definition float_space (u : N) : bool :=
  is_space u && negb ((28 <=? u)%N && (u <=? 31)%N).

(** The first code points of the blocks of ten decimal digits (Unicode
    category Nd, Unicode 14.0 of Python 3.11): the [\d] of [re] for a
    [str] pattern, and the digits [float()] reads. *)
Definition nd_zeros : list N :=
  [48; 1632; 1776; 1984; 2406; 2534; 2662; 2790; 2918; 3046; 3174; 3302;
   3430; 3558; 3664; 3792; 3872; 4160; 4240; 6112; 6160; 6470; 6608;
   6784; 6800; 6992; 7088; 7232; 7248; 42528; 43216; 43264; 43472; 43504;
   43600; 44016; 65296; 66720; 68912; 69734; 69872; 69942; 70096; 70384;
   70736; 70864; 71248; 71360; 71472; 71904; 72016; 72784; 73040; 73120;
   92768; 92864; 93008; 120782; 120792; 120802; 120812; 120822; 123200;
   123632; 125264; 130032]%N.

Fixpoint digit_block (zs : list N) (u : N) : option N :=
  match zs with
  | [] => None
  | z :: zs' =>
      if (z <=? u)%N && (u <? z + 10)%N then Some (u - z)%N else digit_block zs' u
  end.

Definition is_decimal (u : N) : bool :=
  match digit_block nd_zeros u with Some _ => true | None => false end.

Definition decimal_val (u : N) : Z :=
  match digit_block nd_zeros u with Some d => Z.of_N d | None => 0 end.

(** The character class [[\d,]]. *)
Definition is_dc (u : N) : bool := is_decimal u || (u =? 44)%N.

(** ASCII lower case, as [float()] compares "inf" and "nan". *)
Definition lower_cp (u : N) : N :=
  if (65 <=? u)%N && (u <=? 90)%N then (u + 32)%N else u.

(** ** [str.strip()] *)

Fixpoint lstrip_by (sp : N -> bool) (l : list N) : list N :=
  match l with
  | [] => []
  | u :: l' => if sp u then lstrip_by sp l' else l
  end.

Definition strip_by (sp : N -> bool) (l : list N) : list N :=
  rev (lstrip_by sp (rev (lstrip_by sp l))).

Definition strip (s : string) : string := encode (strip_by is_space (decode s)).

(** ** Doubles

    An integer rounded to the nearest double: 53 significant bits, ties
    to even, and an infinity when the rounded value reaches 2^1024.  This
    is [float()] of a digit string and the sum of two integer-valued
    floats. *)
Definition round_int (z : Z) : pyfloat :=
  let a := Z.abs z in
  if (a <=? 2 ^ 53)%Z then Fin z
  else
    let e := Z.log2 a - 52 in
    let q := Z.shiftr a e in
    let r := a - Z.shiftl q e in
    let h := 2 ^ (e - 1) in
    let q' := if ((h <? r) || ((r =? h) && Z.odd q))%Z then q + 1 else q in
    let m := q' * 2 ^ e in
    if (2 ^ 1024 <=? m)%Z then (if (z <? 0)%Z then NegInf else PosInf)
    else Fin (Z.sgn z * m).

(** ** [str(x)] *)

Definition z_to_string (z : Z) : string :=
  NilEmpty.string_of_int (Z.to_int z).

Definition n_to_string (n : N) : string :=
  NilEmpty.string_of_uint (N.to_uint n).

Fixpoint drop_zeros (l : list ascii) : list ascii :=
  match l with
  | c :: l' => if Ascii.eqb c "0" then drop_zeros l' else l
  | [] => []
  end.

(** Drop the trailing zeros of a digit string. *)
Definition strip_zeros (s : string) : string :=
  string_of_list_ascii (rev (drop_zeros (rev (list_ascii_of_string s)))).

Definition pad2 (n : nat) : string :=
  if (n <? 10)%nat then "0" ++ n_to_string (N.of_nat n) else n_to_string (N.of_nat n).

(** [float()] reads [c] back as the double [a]. *)
Definition roundtrips (a c : Z) : bool :=
  match round_int c with Fin b => Z.eqb b a | _ => false end.

(** The [k]-digit decimal [q * 10^e] nearest to the double [a > 0] of [n]
    digits, when it reads back as [a]; of the two neighbours the nearer,
    the even one on a tie. *)
Definition shortest_at (a n k : Z) : option (Z * Z) :=
  let e := n - k in
  let p := 10 ^ e in
  let lo := a / p in
  let r := a mod p in
  let okl := roundtrips a (lo * p) in
  let okh := roundtrips a ((lo + 1) * p) in
  if (r =? 0)%Z then Some (lo, e)
  else if okl && okh then
    if (r * 2 <? p)%Z then Some (lo, e)
    else if (p <? r * 2)%Z then Some (lo + 1, e)
    else if Z.even lo then Some (lo, e) else Some (lo + 1, e)
  else if okl then Some (lo, e)
  else if okh then Some (lo + 1, e)
  else None.

Fixpoint shortest_from (a n : Z) (ks : list Z) : Z * Z :=
  match ks with
  | [] => (a, 0)
  | k :: ks' =>
      match shortest_at a n k with
      | Some r => r
      | None => shortest_from a n ks'
      end
  end.

(** The digits [repr] prints for the double [a > 0]: the fewest that
    read back as [a] (17 always do). *)
Definition shortest (a : Z) : Z * Z :=
  shortest_from a (Z.of_nat (String.length (z_to_string a)))
    [1; 2; 3; 4; 5; 6; 7; 8; 9; 10; 11; 12; 13; 14; 15; 16; 17].

(** [repr] of an integer-valued float: positional with a trailing ".0"
    below 10^16, from 10^16 on the shortest digits that read back as the
    same double, in scientific notation (Python's float_repr_style
    'short'). *)
Definition float_repr (f : pyfloat) : string :=
  match f with
  | Fin z =>
      if Z.ltb (Z.abs z) (10 ^ 16) then z_to_string z ++ ".0"
      else
        let sign := if Z.ltb z 0 then "-" else "" in
        let '(q, e) := shortest (Z.abs z) in
        let d := z_to_string q in
        let m := strip_zeros d in
        let x := Z.to_nat (Z.of_nat (String.length d) - 1 + e) in
        match m with
        | String c rest =>
            sign ++ String c EmptyString
                 ++ (if String.eqb rest "" then "" else "." ++ rest)
                 ++ "e+" ++ pad2 x
        | EmptyString => "0.0"
        end
  | PosInf => "inf"
  | NegInf => "-inf"
  | NaN => "nan"
  end.

Definition py_str (x : pyval) : string :=
  match x with
  | PStr s => s
  | PInt z => z_to_string z
  | PFloat f => float_repr f
  end.

(** ** [float(s)]

    [float] on the strings [clean_price] hands it: a (comma-free) run of
    decimal digits, or a string with no decimal digit at all.  The blanks
    [float_space] around it are ignored; a digit string reads as its
    integer, rounded to a double; a digit-free string is accepted only as
    an optionally signed "inf", "infinity" or "nan" in any ASCII letter
    case.  [None] is the ValueError. *)
Fixpoint digits_value (acc : Z) (s : list N) : Z :=
  match s with
  | [] => acc
  | u :: s' => digits_value (acc * 10 + decimal_val u) s'
  end.

Definition cps_eqb (a b : list N) : bool :=
  if list_eq_dec N.eq_dec a b then true else false.

Definition special_float (w : list N) : option pyfloat :=
  let w := map lower_cp w in
  if cps_eqb w (decode "inf") || cps_eqb w (decode "infinity") then Some PosInf
  else if cps_eqb w (decode "nan") then Some NaN
  else None.

Definition neg_float (f : pyfloat) : pyfloat :=
  match f with
  | Fin z => Fin (- z)
  | PosInf => NegInf
  | NegInf => PosInf
  | NaN => NaN
  end.

Definition py_float (s : list N) : option pyfloat :=
  let t := strip_by float_space s in
  match t with
  | [] => None
  | c :: rest =>
      if forallb is_decimal t then Some (round_int (digits_value 0 t))
      else if (c =? 45)%N then option_map neg_float (special_float rest)
      else if (c =? 43)%N then special_float rest
      else special_float t
  end.

(** ** The amount normaliser, lines 57-65

<<
    def clean_price(x):
        m = re.search(r'\(?([\d,]+)\)?', str(x))
        if m:
            x = m.group(1)
        x = str(x).replace(',', '')
        try:
            return float(x)
        except:
            return 0
>>
*)

(** The greedy run [[\d,]+] at the start of a string. *)
Fixpoint take_run (s : list N) : list N :=
  match s with
  | u :: s' => if is_dc u then u :: take_run s' else []
  | [] => []
  end.

(** [\(?([\d,]+)\)?] matched at one position: the optional "(" is taken
    when the group can follow it, and dropped (backtracking) otherwise;
    the trailing [\)?] never fails.  The result is group 1. *)
Definition match_at (s : list N) : option (list N) :=
  let plain := match take_run s with
               | [] => None
               | g => Some g
               end in
  match s with
  | u :: s' =>
      if (u =? 40)%N then
        match take_run s' with
        | [] => plain
        | g => Some g
        end
      else plain
  | [] => plain
  end.

(** [re.search]: the first position where the pattern matches. *)
Fixpoint re_search (s : list N) : option (list N) :=
  match match_at s with
  | Some g => Some g
  | None =>
      match s with
      | _ :: s' => re_search s'
      | [] => None
      end
  end.

Fixpoint remove_commas (s : list N) : list N :=
  match s with
  | [] => []
  | u :: s' => if (u =? 44)%N then remove_commas s' else u :: remove_commas s'
  end.

Definition clean_price (x : pyval) : pyval :=
  let s := decode (py_str x) in
  let x1 := match re_search s with Some g => g | None => s end in
  let x2 := remove_commas x1 in
  match py_float x2 with
  | Some f => PFloat f
  | None => PInt 0
  end.

(** ** Category keys, lines 69-71 and 194-199 *)

(** The "other" sentinel of the code. *)
Definition other : string := "기타".

(** The greedy run [[^)]+] at the start of a string. *)
Fixpoint take_not_close (s : string) : string :=
  match s with
  | String c s' =>
      if Ascii.eqb c ")" then EmptyString else String c (take_not_close s')
  | EmptyString => EmptyString
  end.

(** [\(([^)]+)\)] matched at one position. *)
Definition paren_at (s : string) : option string :=
  match s with
  | String c s' =>
      if Ascii.eqb c "(" then
        let g := take_not_close s' in
        match g with
        | EmptyString => None
        | _ =>
            match String.get (String.length g) s' with
            | Some d => if Ascii.eqb d ")" then Some g else None
            | None => None
            end
        end
      else None
  | EmptyString => None
  end.

Fixpoint paren_search (s : string) : option string :=
  match paren_at s with
  | Some g => Some g
  | None =>
      match s with
      | String _ s' => paren_search s'
      | EmptyString => None
      end
  end.

(** <<
    def extract_paren(x):
        m = re.search(r'\(([^)]+)\)', str(x))
        return m.group(1).strip() if m else '기타'
>> *)
Definition extract_paren (x : pyval) : string :=
  match paren_search (py_str x) with
  | Some g => strip g
  | None => other
  end.

(** The greedy run [[^(]+] at the start of a string. *)
Fixpoint take_not_open (s : string) : string :=
  match s with
  | String c s' =>
      if Ascii.eqb c "(" then EmptyString else String c (take_not_open s')
  | EmptyString => EmptyString
  end.

(** [pd.isna] on a cell. *)
Definition is_na (x : pyval) : bool :=
  match x with
  | PFloat NaN => true
  | _ => false
  end.

(** <<
    def extract_prefix(x):
        if pd.isna(x) or str(x).strip() == "":
            return "기타"
        m = re.match(r"([^(]+)", str(x))
        return m.group(1).strip() if m else "기타"
>> *)
Definition extract_prefix (x : pyval) : string :=
  if is_na x || String.eqb (strip (py_str x)) "" then other
  else
    match take_not_open (py_str x) with
    | EmptyString => other
    | g => strip g
    end.

(** ** Loading, lines 30-78

    A decoded table: its number of rows and its columns, in order. *)
Record table := mk_table {
  nrows : nat;
  columns : list (string * list pyval)
}.

(** A column has name [c]. *)
Definition has_key (c : string) (p : string * list pyval) : bool := String.eqb (fst p) c.

Definition has_col (t : table) (c : string) : bool :=
  existsb (fun p => String.eqb (fst p) c) (columns t).

Definition get_col (t : table) (c : string) : option (list pyval) :=
  option_map snd (find (fun p => String.eqb (fst p) c) (columns t)).

(** [df[c] = v]: replaces an existing column, appends a new one. *)
Definition set_col (t : table) (c : string) (v : list pyval) : table :=
  if has_col t c then
    mk_table (nrows t)
      (map (fun p => if String.eqb (fst p) c then (c, v) else p) (columns t))
  else mk_table (nrows t) (columns t ++ [(c, v)]).

Definition col_category := "분류명".
Definition col_product := "상품명".
Definition col_orders := "주문수".
Definition col_amount := "실판매금액".
Definition col_branch := "지점명".
Definition col_month := "월".
Definition col_group := "분류그룹".

(** The unassigned-branch sentinel. *)
Definition unassigned_branch := "미지정지점".

Definition required_cols : list string :=
  [col_category; col_product; col_orders; col_amount; col_branch; col_month].

(** The loop over [required_cols]: [None] is the [st.error] and
    [return None] of a missing non-defaultable column. *)
Fixpoint fill_required (cols : list string) (label : string) (t : table)
  : option table :=
  match cols with
  | [] => Some t
  | col :: rest =>
      if has_col t col then fill_required rest label t
      else if String.eqb col col_branch then
        fill_required rest label
          (set_col t col (repeat (PStr unassigned_branch) (nrows t)))
      else if String.eqb col col_month then
        fill_required rest label (set_col t col (repeat (PStr label) (nrows t)))
      else None
  end.

(** Lines 44-74: fill the columns, clean the amounts, add the group key. *)
Definition preprocess (df : table) (label : string) : option table :=
  match fill_required required_cols label df with
  | None => None
  | Some t =>
      let amounts := match get_col t col_amount with Some v => v | None => [] end in
      let t := set_col t col_amount (map clean_price amounts) in
      let cats := match get_col t col_category with Some v => v | None => [] end in
      Some (set_col t col_group (map (fun x => PStr (extract_paren x)) cats))
  end.

Definition supported_ext (ext : string) : bool :=
  let e := lower_str ext in
  String.eqb e ".xls" || String.eqb e ".xlsx" || String.eqb e ".csv".

(** [load_and_preprocess_from_path] on an existing file with extension
    [ext] whose reader returned [df]. *)
Definition load_and_preprocess (ext : string) (df : table) (label : string)
  : option table :=
  if supported_ext ext then preprocess df label else None.

(** ** Group sums and the period comparison, lines 138-142 and 251-257

    A pandas Series indexed by group key, in index order.  [groupby]
    sorts its keys. *)
Definition series (A : Type) := list (string * A).

Fixpoint series_insert (k : string) (v : Z) (m : series Z) : series Z :=
  match m with
  | [] => [(k, v)]
  | (k', v') :: m' =>
      match String.compare k k' with
      | Eq => (k', v' + v) :: m'
      | Lt => (k, v) :: m
      | Gt => (k', v') :: series_insert k v m'
      end
  end.

(** [df.groupby(key)[value].sum()] over the (key, value) pairs of the
    rows, with the amounts as exact integers; [groupby_fsum] below is the
    float64 sum, which agrees with this one while the magnitudes add up to
    at most 2^53. *)
Definition groupby_sum (rows : list (string * Z)) : series Z :=
  fold_left (fun m r => series_insert (fst r) (snd r) m) rows [].

(** Series addition [a + b]: aligned on the union of the indexes, nan
    ([None]) where a key is missing on either side. *)
Fixpoint series_add (a : series Z) : series Z -> series (option Z) :=
  fix go (b : series Z) :=
    match a, b with
    | [], _ => map (fun p => (fst p, None)) b
    | _, [] => map (fun p => (fst p, None)) a
    | (ka, va) :: a', (kb, vb) :: b' =>
        match String.compare ka kb with
        | Eq => (ka, Some (va + vb)) :: series_add a' b'
        | Lt => (ka, None) :: series_add a' b
        | Gt => (kb, None) :: go b'
        end
    end.

(** The order of [sort_values(ascending=False)]: larger values first, nan
    last. *)
Definition ranks_before (x y : option Z) : bool :=
  match x, y with
  | Some a, Some b => Z.gtb a b
  | Some _, None => true
  | None, _ => false
  end.

Fixpoint insert_desc {A} (x : string * A) (rk : A -> option Z)
    (l : list (string * A)) : list (string * A) :=
  match l with
  | [] => [x]
  | y :: l' =>
      if ranks_before (rk (snd x)) (rk (snd y)) then x :: l
      else y :: insert_desc x rk l'
  end.

(** [sort_values(ascending=False)], as a stable sort (pandas' default
    sort leaves the order of ties unspecified). *)
Definition sort_desc {A} (rk : A -> option Z) (l : list (string * A))
  : list (string * A) :=
  fold_left (fun acc x => insert_desc x rk acc) l [].

Definition key_in (ks : list string) (k : string) : bool :=
  existsb (String.eqb k) ks.

(** [pd.merge(curr, prev, on=key, how="outer").fillna(0)]: keys sorted,
    a key missing on one side gets 0 there.  Each entry is
    (key, (current, previous)). *)
Fixpoint outer_merge (c : series Z) : series Z -> series (Z * Z) :=
  fix go (p : series Z) :=
    match c, p with
    | [], _ => map (fun q => (fst q, (0, snd q))) p
    | _, [] => map (fun q => (fst q, (snd q, 0))) c
    | (kc, vc) :: c', (kp, vp) :: p' =>
        match String.compare kc kp with
        | Eq => (kc, (vc, vp)) :: outer_merge c' p'
        | Lt => (kc, (vc, 0)) :: outer_merge c' p
        | Gt => (kp, (0, vp)) :: go p'
        end
    end.

(** A row of [compare]. *)
Record comparison_row := mk_row {
  row_key : string;
  row_curr : Z;    (* 실판매금액_당월 *)
  row_prev : Z;    (* 실판매금액_전달 *)
  row_delta : Z;   (* 증감액 *)
  row_rate : Q     (* 증감률 *)
}.

(** Lines 256-257:
    [compare["증감액"] = compare["실판매금액_당월"] - compare["실판매금액_전달"]]
    and [compare["증감률"] = (compare["증감액"] / compare["실판매금액_전달"].replace(0, 1)) * 100]. *)
Definition make_row (e : string * (Z * Z)) : comparison_row :=
  let '(k, (c, p)) := e in
  let d := c - p in
  let p1 := if Z.eqb p 0 then 1 else p in
  mk_row k c p d ((inject_Z d / inject_Z p1) * inject_Z 100)%Q.

(** Lines 251-252: the ten keys with the largest summed amount. *)
Definition top10_groups (prev curr : list (string * Z)) : list string :=
  let group_sum := series_add (groupby_sum prev) (groupby_sum curr) in
  map fst (firstn 10 (sort_desc (fun v => v) group_sum)).

(** Lines 251-257 on the (group key, amount) pairs of both periods. *)
Definition compare_groups (prev curr : list (string * Z))
  : list comparison_row :=
  let top10 := top10_groups prev curr in
  let prev_group := groupby_sum (filter (fun r => key_in top10 (fst r)) prev) in
  let curr_group := groupby_sum (filter (fun r => key_in top10 (fst r)) curr) in
  map make_row (outer_merge curr_group prev_group).

(** ** Metrics of the single-file report, lines 438-459 *)

(** Python's [/]: [None] for a zero divisor (ZeroDivisionError on Python
    numbers, nan on numpy scalars). *)
Definition py_div (a b : Q) : option Q :=
  if Qeq_bool b 0 then None else Some (a / b)%Q.

(** A record of the current period as the report uses it:
    (분류그룹, 주문수, 실판매금액). *)
Definition sales_rec := (string * Z * Z)%type.

Definition rec_group (r : sales_rec) : string := fst (fst r).
Definition rec_orders (r : sales_rec) : Z := snd (fst r).
Definition rec_amount (r : sales_rec) : Z := snd r.

Definition sum_Z (l : list Z) : Z := fold_right Z.add 0 l.

Definition avg_order_value (recs : list sales_rec) : Q :=
  let total_sales := sum_Z (map rec_amount recs) in
  let total_orders := sum_Z (map rec_orders recs) in
  if Z.gtb total_orders 0 then (inject_Z total_sales / inject_Z total_orders)%Q
  else 0%Q.

(** Lines 453-459: the share of the five largest groups, in percent. *)
Definition sales_ratio (recs : list sales_rec) : option Q :=
  let total_sales := sum_Z (map rec_amount recs) in
  let groups := groupby_sum (map (fun r => (rec_group r, rec_amount r)) recs) in
  let top5 := firstn 5 (sort_desc (fun v => Some v) groups) in
  let total_top5_sales := sum_Z (map snd top5) in
  option_map (fun q => (q * inject_Z 100)%Q)
    (py_div (inject_Z total_top5_sales) (inject_Z total_sales)).

(** ** Comparing results *)

(** Python's [==] between the numbers [clean_price] returns ([0 == 0.0]
    holds, nan equals nothing). *)
Definition num_of (v : pyval) : option pyfloat :=
  match v with
  | PInt z => Some (Fin z)
  | PFloat f => Some f
  | PStr _ => None
  end.

Definition py_eq (a b : pyval) : bool :=
  match num_of a, num_of b with
  | Some (Fin x), Some (Fin y) => Z.eqb x y
  | Some PosInf, Some PosInf => true
  | Some NegInf, Some NegInf => true
  | _, _ => false
  end.

(** The same number: Python's [==], with nan the same value as nan. *)
Definition same_value (a b : pyval) : bool :=
  py_eq a b ||
  match num_of a, num_of b with
  | Some NaN, Some NaN => true
  | _, _ => false
  end.

(** Not a negative number. *)
Definition nonneg (v : pyval) : bool :=
  match v with
  | PInt z => Z.leb 0 z
  | PFloat (Fin z) => Z.leb 0 z
  | PFloat NegInf => false
  | _ => true
  end.

(** Ten keys ["k0"], ..., ["k9"] with amount 1 in both periods, and a key
    ["x"] with amount 1000 in the previous period only. *)
Definition ten_keys : list string :=
  ["k0"; "k1"; "k2"; "k3"; "k4"; "k5"; "k6"; "k7"; "k8"; "k9"].

Definition prev_with_x : list (string * Z) :=
  ("x", 1000) :: map (fun k => (k, 1)) ten_keys.

Definition curr_without_x : list (string * Z) :=
  map (fun k => (k, 1)) ten_keys.

(** ** Orders, sums by key, and the two-period report, lines 240-264 *)

(** [x] ranks at least as high as [y] in [sort_values(ascending=False)]. *)
Definition rank_geq (x y : option Z) : bool := negb (ranks_before y x).

Definition geq_at {A} (rk : A -> option Z) (x y : string * A) : Prop :=
  rank_geq (rk (snd x)) (rk (snd y)) = true.

(** The index order of a Series. *)
Definition key_lt {A} (x y : string * A) : Prop := String.compare (fst x) (fst y) = Lt.

(** The total amount of the rows with key [k]. *)
Definition sum_key (k : string) (rows : list (string * Z)) : Z :=
  sum_Z (map snd (filter (fun r => String.eqb (fst r) k) rows)).

(** Lines 240-243: the percentage change of the total, 0 when the previous
    total is 0 ([if total_prev]). *)
Definition diff_rate (total_prev total_curr : Z) : Q :=
  let diff := total_curr - total_prev in
  if Z.eqb total_prev 0 then 0%Q
  else (inject_Z diff / inject_Z total_prev * inject_Z 100)%Q.

(** Line 248: the verb of the trend sentence, after [abs(diff_rate)]. *)
Definition trend_word (total_prev total_curr : Z) : string :=
  if Z.gtb (total_curr - total_prev) 0 then "증가" else "감소".

(** Lines 259-260: the rows ranked by their change, largest first
    ([sort_values(by='증감액', ascending=False).head(3)]) and smallest
    first ([sort_values(by='증감액').head(3)], ranked as the negated change
    in descending order, which keeps ties in the same order). *)
Definition by_key (rows : list comparison_row) : list (string * comparison_row) :=
  map (fun r => (row_key r, r)) rows.

Definition top3 (rows : list comparison_row) : list comparison_row :=
  map snd (firstn 3 (sort_desc (fun r => Some (row_delta r)) (by_key rows))).

Definition bottom3 (rows : list comparison_row) : list comparison_row :=
  map snd (firstn 3 (sort_desc (fun r => Some (- row_delta r)) (by_key rows))).

(** Sample inputs: (group key, amount) pairs of two periods, records of a
    current period, and a decoded file. *)
Definition sample_prev : list (string * Z) :=
  [("A", 100); ("B", 50); ("A", 20); ("D", 10)].

Definition sample_curr : list (string * Z) :=
  [("A", 150); ("C", 20); ("D", 40)].

Definition sample_table : table :=
  mk_table 2 [(col_category, [PStr "Snacks (Import)"; PStr "Tea"]);
              (col_product, [PStr "p"; PStr "q"]);
              (col_orders, [PInt 1; PInt 2]);
              (col_amount, [PStr "(1,000)"; PStr "2.5"]);
              (col_branch, [PStr "b1"; PStr "b2"])].

(** The value of a decimal digit sequence read from the left, as
    [digits_value] reads a digit string. *)
Fixpoint uint_value (acc : Z) (d : Decimal.uint) : Z :=
  match d with
  | Decimal.Nil => acc
  | Decimal.D0 d => uint_value (acc * 10) d
  | Decimal.D1 d => uint_value (acc * 10 + 1) d
  | Decimal.D2 d => uint_value (acc * 10 + 2) d
  | Decimal.D3 d => uint_value (acc * 10 + 3) d
  | Decimal.D4 d => uint_value (acc * 10 + 4) d
  | Decimal.D5 d => uint_value (acc * 10 + 5) d
  | Decimal.D6 d => uint_value (acc * 10 + 6) d
  | Decimal.D7 d => uint_value (acc * 10 + 7) d
  | Decimal.D8 d => uint_value (acc * 10 + 8) d
  | Decimal.D9 d => uint_value (acc * 10 + 9) d
  end.


(** ** Float64 sums, lines 107-108 and 138-141

    The amounts [clean_price] produces are integer-valued doubles (or
    inf and nan), and so are their sums: [x + y] on two such floats is the
    exact integer sum rounded to the nearest double. *)
Definition fadd (x y : pyfloat) : pyfloat :=
  match x, y with
  | Fin a, Fin b => round_int (a + b)
  | NaN, _ | _, NaN => NaN
  | PosInf, NegInf | NegInf, PosInf => NaN
  | PosInf, _ | _, PosInf => PosInf
  | NegInf, _ | _, NegInf => NegInf
  end.

Definition fsub (x y : pyfloat) : pyfloat := fadd x (neg_float y).

Definition is_nan (f : pyfloat) : bool :=
  match f with NaN => true | _ => false end.

(** One step of the compensated (Kahan) sum that pandas' [group_sum]
    keeps per group (pandas/_libs/groupby.pyx); a nan value is skipped:
<<
    y = val - compensation[lab, j]
    t = sumx[lab, j] + y
    compensation[lab, j] = t - sumx[lab, j] - y
    if compensation[lab, j] != compensation[lab, j]:
        compensation[lab, j] = 0
    sumx[lab, j] = t
>> *)
Definition kahan_add (acc : pyfloat * pyfloat) (val : pyfloat) : pyfloat * pyfloat :=
  let '(s, c) := acc in
  if is_nan val then acc
  else
    let y := fsub val c in
    let t := fadd s y in
    let c' := fsub (fsub t s) y in
    (t, if is_nan c' then Fin 0 else c').

(** The (sum, compensation) accumulators of the groups met so far, in
    key order. *)
Fixpoint acc_insert (k : string) (v : pyfloat) (m : series (pyfloat * pyfloat))
  : series (pyfloat * pyfloat) :=
  match m with
  | [] => [(k, kahan_add (Fin 0, Fin 0) v)]
  | (k', a) :: m' =>
      match String.compare k k' with
      | Eq => (k', kahan_add a v) :: m'
      | Lt => (k, kahan_add (Fin 0, Fin 0) v) :: m
      | Gt => (k', a) :: acc_insert k v m'
      end
  end.

(** [df.groupby(key)[value].sum()] on a float64 column, over the (key,
    value) pairs of the rows. *)
Definition groupby_fsum (rows : list (string * pyfloat)) : series pyfloat :=
  map (fun p => (fst p, fst (snd p)))
    (fold_left (fun m r => acc_insert (fst r) (snd r) m) rows []).

(** numpy's [pairwise_sum] for doubles (numpy/_core/src/umath/loops_utils.h):
<<
    if (n < 8) {
        res = 0.;
        for (i = 0; i < n; i++) res += a[i];
        return res;
    }
    else if (n <= PW_BLOCKSIZE) {            /* 128 */
        r[0..7] = a[0..7];
        for (i = 8; i < n - (n % 8); i += 8) r[j] += a[i + j];   /* j = 0..7 */
        res = ((r[0] + r[1]) + (r[2] + r[3])) +
              ((r[4] + r[5]) + (r[6] + r[7]));
        for (; i < n; i++) res += a[i];
        return res;
    }
    else {
        n2 = n / 2;
        n2 -= n2 % 8;
        return pairwise_sum(a, n2, stride) +
               pairwise_sum(a + n2 * stride, n - n2, stride);
    }
>> *)
Definition seq_sum (res : pyfloat) (l : list pyfloat) : pyfloat :=
  fold_left fadd l res.

(** [r[j] += a[i + j]] for the block [a[i..i+7]]. *)
Fixpoint add_block (r b : list pyfloat) : list pyfloat :=
  match r, b with
  | x :: r', y :: b' => fadd x y :: add_block r' b'
  | _, _ => r
  end.

(** The [k] blocks of eight that follow the first one. *)
Fixpoint accumulate (k : nat) (r l : list pyfloat) : list pyfloat :=
  match k with
  | O => r
  | S k' => accumulate k' (add_block r (firstn 8 l)) (skipn 8 l)
  end.

Definition combine8 (r : list pyfloat) : pyfloat :=
  let r i := nth i r (Fin 0) in
  fadd (fadd (fadd (r 0%nat) (r 1%nat)) (fadd (r 2%nat) (r 3%nat)))
       (fadd (fadd (r 4%nat) (r 5%nat)) (fadd (r 6%nat) (r 7%nat))).

(** The recursion on [n > 128] halves the length, so [fuel = length l]
    is never exhausted ([pairwise_sum] below); the [O] case is the loop
    of [n < 8]. *)
Fixpoint pairwise_sum_fuel (fuel : nat) (l : list pyfloat) : pyfloat :=
  let n := length l in
  if (n <? 8)%nat then seq_sum (Fin 0) l
  else if (n <=? 128)%nat then
    let m := (n - n mod 8)%nat in
    let r := accumulate (m / 8 - 1) (firstn 8 l) (skipn 8 l) in
    seq_sum (combine8 r) (skipn m l)
  else
    match fuel with
    | O => seq_sum (Fin 0) l
    | S fuel' =>
        let n2 := (n / 2 - (n / 2) mod 8)%nat in
        fadd (pairwise_sum_fuel fuel' (firstn n2 l))
             (pairwise_sum_fuel fuel' (skipn n2 l))
    end.

Definition pairwise_sum (l : list pyfloat) : pyfloat :=
  pairwise_sum_fuel (length l) l.

(** [Series.sum()] of a float64 Series (pandas' [nansum]): nan values
    become 0, then numpy's [add.reduce] starts from the identity 0.0 and
    adds the pairwise sum of the whole (contiguous) array. *)
Definition series_fsum (l : list pyfloat) : pyfloat :=
  fadd (Fin 0) (pairwise_sum (map (fun f => if is_nan f then Fin 0 else f) l)).

(** The records of a period as float (group key, amount) pairs. *)
Definition float_rows (rows : list (string * Z)) : list (string * pyfloat) :=
  map (fun r => (fst r, Fin (snd r))) rows.

(** 2^53 in group "a" and 1 twice in group "b". *)
Definition rows_2_53 : list (string * Z) :=
  [("a", 2 ^ 53); ("b", 1); ("b", 1)].

(** The sum of the magnitudes of integer amounts. *)
Definition sum_abs (l : list Z) : Z := sum_Z (map Z.abs l).

(** The accumulators of exact group sums, with no compensation. *)
Definition lift_acc (m : series Z) : series (pyfloat * pyfloat) :=
  map (fun p => (fst p, (Fin (snd p), Fin 0))) m.

(** ** Lemmas on characters *)

Lemma decimal_not_space u : is_decimal u = true -> is_space u = false.
Proof.
  intros Hd. destruct (is_space u) eqn:E; [|reflexivity].
  unfold is_space in E. apply existsb_exists in E as [s [Hs Hu]].
  apply N.eqb_eq in Hu. subst s.
  assert (A : forallb (fun s => negb (is_decimal s)) space_points = true)
    by (vm_compute; reflexivity).
  rewrite forallb_forall in A. specialize (A u Hs). rewrite Hd in A. discriminate.
Qed.

Lemma decimal_not_float_space u : is_decimal u = true -> float_space u = false.
Proof. intros Hd. unfold float_space. rewrite (decimal_not_space u Hd). reflexivity. Qed.

Lemma decimal_dc u : is_decimal u = true -> is_dc u = true.
Proof. unfold is_dc. intros ->. reflexivity. Qed.

Lemma decimal_not_comma u : is_decimal u = true -> (u =? 44)%N = false.
Proof. intros H. destruct (N.eqb_spec u 44); [subst; discriminate|reflexivity]. Qed.

Lemma dc_not_open u : is_dc u = true -> (u =? 40)%N = false.
Proof. intros H. destruct (N.eqb_spec u 40); [subst; discriminate|reflexivity]. Qed.

Lemma decimal_val_nonneg u : 0 <= decimal_val u.
Proof. unfold decimal_val. destruct (digit_block nd_zeros u); lia. Qed.

(** ** Lemmas on [str.strip] *)

Lemma lstrip_by_keep sp l :
  match l with u :: _ => sp u = false | [] => True end -> lstrip_by sp l = l.
Proof. destruct l as [|u l]; simpl; [reflexivity|]. intros ->. reflexivity. Qed.

Lemma strip_by_keep sp l :
  forallb (fun u => negb (sp u)) l = true -> strip_by sp l = l.
Proof.
  intros H. unfold strip_by.
  rewrite (lstrip_by_keep sp l).
  2:{ destruct l as [|u l]; [exact I|]. simpl in H.
      apply andb_true_iff in H as [H _]. apply negb_true_iff, H. }
  rewrite (lstrip_by_keep sp (rev l)); [apply rev_involutive|].
  destruct (rev l) as [|u r] eqn:E; [exact I|].
  assert (Hu : In u l) by (apply in_rev; rewrite E; left; reflexivity).
  rewrite forallb_forall in H. apply negb_true_iff, H, Hu.
Qed.

Lemma lstrip_by_nonblank sp l :
  existsb (fun u => negb (sp u)) l = true ->
  exists u t, lstrip_by sp l = u :: t /\ sp u = false.
Proof.
  induction l as [|u l IH]; simpl; [discriminate|]. intros H.
  destruct (sp u) eqn:E.
  - apply IH, H.
  - exists u, l. auto.
Qed.

Lemma existsb_rev {A} (f : A -> bool) l : existsb f (rev l) = existsb f l.
Proof.
  induction l as [|a l IH]; simpl; [reflexivity|].
  rewrite existsb_app, IH. simpl. rewrite orb_false_r, orb_comm. reflexivity.
Qed.

Lemma strip_by_nonblank sp l :
  existsb (fun u => negb (sp u)) l = true -> strip_by sp l <> [].
Proof.
  intros H. unfold strip_by.
  destruct (lstrip_by_nonblank sp l H) as [u [t [E Hu]]]. rewrite E.
  assert (H2 : existsb (fun u => negb (sp u)) (rev (u :: t)) = true)
    by (rewrite existsb_rev; simpl; rewrite Hu; reflexivity).
  destruct (lstrip_by_nonblank sp _ H2) as [u' [t' [E' _]]]. rewrite E'.
  simpl. intros C. apply app_eq_nil in C as [_ C]. discriminate.
Qed.

Lemma lstrip_by_blank sp l :
  existsb (fun u => negb (sp u)) l = false -> lstrip_by sp l = [].
Proof.
  induction l as [|u l IH]; simpl; [reflexivity|]. intros H.
  apply orb_false_iff in H as [Hu Hl]. apply negb_false_iff in Hu. rewrite Hu. apply IH, Hl.
Qed.

Lemma strip_by_nonblank_inv sp l :
  strip_by sp l <> [] -> existsb (fun u => negb (sp u)) l = true.
Proof.
  intros H. destruct (existsb _ l) eqn:E; [reflexivity|].
  exfalso. apply H. unfold strip_by. rewrite (lstrip_by_blank sp l E). reflexivity.
Qed.

Lemma encode_nonempty l : l <> [] -> encode l <> EmptyString.
Proof.
  destruct l as [|u l]; [contradiction|]. intros _. simpl. unfold encode_cp.
  destruct (u <? 128)%N; [discriminate|].
  destruct (u <? 2048)%N; [discriminate|].
  destruct (u <? 65536)%N; discriminate.
Qed.

Lemma encode_empty_inv l : encode l = EmptyString -> l = [].
Proof.
  intros H. destruct l as [|u l]; [reflexivity|].
  exfalso. apply (encode_nonempty (u :: l)); [discriminate|exact H].
Qed.

(** ** Lemmas on UTF-8 decoding *)

Lemma is_cont_ascii c : (byte c <? 128)%N = true -> is_cont c = false.
Proof.
  unfold is_cont. intros H. apply N.ltb_lt in H.
  destruct (N.leb_spec 128 (byte c)); [lia|reflexivity].
Qed.

Lemma decode_ascii_cons c s :
  (byte c <? 128)%N = true -> decode (String c s) = byte c :: decode s.
Proof. intros H. cbn [decode]. rewrite H. reflexivity. Qed.

(** One step of [decode]. *)
Lemma decode_cons c0 s1 :
  decode (String c0 s1) =
  let b := byte c0 in
  if (b <? 128)%N then b :: decode s1
  else if (194 <=? b)%N && (b <? 224)%N then
    match s1 with
    | String c1 s2 =>
        if is_cont c1 then ((b - 192) * 64 + cbits c1)%N :: decode s2
        else 65533%N :: decode s1
    | EmptyString => 65533%N :: decode s1
    end
  else if (224 <=? b)%N && (b <? 240)%N then
    match s1 with
    | String c1 (String c2 s3) =>
        if is_cont c1 && is_cont c2 then
          ((b - 224) * 4096 + cbits c1 * 64 + cbits c2)%N :: decode s3
        else 65533%N :: decode s1
    | _ => 65533%N :: decode s1
    end
  else if (240 <=? b)%N && (b <? 245)%N then
    match s1 with
    | String c1 (String c2 (String c3 s4)) =>
        if is_cont c1 && is_cont c2 && is_cont c3 then
          ((b - 240) * 262144 + cbits c1 * 4096 + cbits c2 * 64 + cbits c3)%N
          :: decode s4
        else 65533%N :: decode s1
    | _ => 65533%N :: decode s1
    end
  else 65533%N :: decode s1.
Proof. reflexivity. Qed.

(** An ASCII character ends any multibyte sequence left open before it,
    so decoding splits there. *)
Lemma decode_app_ascii c s :
  (byte c <? 128)%N = true ->
  forall p, decode (p ++ String c s) = (decode p ++ byte c :: decode s)%list.
Proof.
  intros Hc. pose proof (is_cont_ascii c Hc) as Kc.
  pose proof (decode_ascii_cons c s Hc) as Dc.
  assert (forall n p, String.length p <= n ->
            decode (p ++ String c s) = (decode p ++ byte c :: decode s)%list)%nat.
  2:{ intros p. apply (H (String.length p) p). lia. }
  induction n as [|n IH]; intros p Hp.
  { destruct p; [|simpl in Hp; lia]. exact Dc. }
  destruct p as [|c0 p1]; [exact Dc|].
  simpl in Hp. cbn [append].
  rewrite (decode_cons c0 (p1 ++ String c s)), (decode_cons c0 p1).
  destruct p1 as [|c1 [|c2 [|c3 p4]]]; cbn -[decode];
    rewrite ?Kc, ?andb_false_r;
    repeat match goal with
           | |- context [if ?b then _ else _] =>
               lazymatch b with
               | true => fail
               | false => fail
               | _ => destruct b
               end
           end;
    cbn -[decode];
    repeat match goal with
           | |- context [match ?x with EmptyString => _ | String _ _ => _ end] =>
               is_var x; destruct x
           end;
    cbn -[decode]; try (rewrite Dc; reflexivity);
    f_equal;
    match goal with
    | |- decode _ = (decode ?q ++ _)%list => apply (IH q); simpl in *; lia
    end.
Qed.

Lemma decode_ascii_app p s :
  all_chars (fun c => (byte c <? 128)%N) p = true ->
  decode (p ++ s) = (map byte (list_ascii_of_string p) ++ decode s)%list.
Proof.
  induction p as [|c p IH]; [reflexivity|].
  cbn [append all_chars list_ascii_of_string map]. intros H.
  apply andb_true_iff in H as [Hc Hp].
  rewrite decode_ascii_cons by exact Hc. rewrite IH by exact Hp. reflexivity.
Qed.

(** ** Lemmas on rounding to a double *)

Lemma round_int_small z : Z.abs z <= 2 ^ 53 -> round_int z = Fin z.
Proof.
  intros H. unfold round_int. apply Z.leb_le in H. rewrite H. reflexivity.
Qed.

Lemma round_int_nonneg v :
  0 <= v -> (exists w, round_int v = Fin w /\ 0 <= w) \/ round_int v = PosInf.
Proof.
  intros Hv. unfold round_int. rewrite Z.abs_eq by exact Hv.
  destruct (Z.leb_spec v (2 ^ 53)); [left; exists v; auto|].
  cbv zeta.
  assert (Hq : 0 <= Z.shiftr v (Z.log2 v - 52)) by (apply Z.shiftr_nonneg; lia).
  assert (He : 0 <= 2 ^ (Z.log2 v - 52)) by (apply Z.pow_nonneg; lia).
  match goal with |- context [if ?b then ?x + 1 else ?x] => destruct b end;
  match goal with |- context [(2 ^ 1024 <=? ?m)%Z] => destruct (Z.leb_spec (2 ^ 1024) m) end;
  try (right; destruct (Z.ltb_spec v 0); [lia|reflexivity]);
  left; eexists; (split; [reflexivity|]);
  apply Z.mul_nonneg_nonneg; try (apply Z.sgn_nonneg; lia); nia.
Qed.

Lemma round_int_not_nan z : round_int z <> NaN.
Proof.
  unfold round_int. destruct (Z.abs z <=? 2 ^ 53)%Z; [discriminate|].
  cbv zeta. destruct (2 ^ 1024 <=? _)%Z; [destruct (z <? 0)%Z|]; discriminate.
Qed.

(** A rounded value above 2^53 is a multiple of 2. *)
Lemma round_int_even v w : round_int v = Fin w -> 2 ^ 53 < Z.abs v -> Z.even w = true.
Proof.
  intros H Hv. unfold round_int in H.
  destruct (Z.leb_spec (Z.abs v) (2 ^ 53)); [lia|]. cbv zeta in H.
  assert (Hl : 53 <= Z.log2 (Z.abs v)).
  { rewrite <- (Z.log2_pow2 53) by lia. apply Z.log2_le_mono. lia. }
  set (e := Z.log2 (Z.abs v) - 52) in H.
  destruct (2 ^ 1024 <=? _)%Z; [destruct (v <? 0)%Z; discriminate|].
  injection H as <-.
  rewrite !Z.even_mul, (Z.even_pow 2 e) by lia. simpl. rewrite !orb_true_r. reflexivity.
Qed.

(** An even integer between 2^53 and 2^54 is a double. *)
Lemma round_int_even_fix z : 2 ^ 53 < z < 2 ^ 54 -> Z.even z = true -> round_int z = Fin z.
Proof.
  intros Hz Ev. apply Z.even_spec in Ev as [k Ek]. subst z.
  unfold round_int. rewrite Z.abs_eq by lia.
  destruct (Z.leb_spec (2 * k) (2 ^ 53)); [lia|]. cbv zeta.
  assert (Hl : Z.log2 (2 * k) = 53) by (apply Z.log2_unique; lia).
  rewrite Hl. change (53 - 52) with 1.
  rewrite Z.shiftr_div_pow2, Z.shiftl_mul_pow2 by lia.
  change (2 ^ 1) with 2. change (2 ^ (1 - 1)) with 1.
  rewrite (Z.mul_comm 2 k), Z.div_mul by lia.
  replace (k * 2 - k * 2) with 0 by lia. simpl. change (Z.pow_pos 2 1024) with (2 ^ 1024).
  destruct (Z.leb_spec (2 ^ 1024) (k * 2)); [lia|].
  rewrite Z.sgn_pos by lia. f_equal. lia.
Qed.

(** A double below 2^54 reads back as itself. *)
Lemma round_int_idem v z : round_int v = Fin z -> 0 <= z < 2 ^ 54 -> round_int z = Fin z.
Proof.
  intros H Hz. destruct (Z.leb_spec z (2 ^ 53)).
  - apply round_int_small. lia.
  - destruct (Z.leb_spec (Z.abs v) (2 ^ 53)).
    + rewrite round_int_small in H by exact H1. injection H as <-. lia.
    + apply round_int_even_fix; [lia|]. apply (round_int_even v z H); lia.
Qed.

(** ** Lemmas on [float()] *)

Lemma digits_value_nonneg s acc : 0 <= acc -> 0 <= digits_value acc s.
Proof.
  revert acc. induction s as [|u s IH]; intros acc Hacc; simpl; [lia|].
  apply IH. pose proof (decimal_val_nonneg u). lia.
Qed.

Lemma py_float_digits t :
  forallb is_decimal t = true ->
  py_float t = match t with
               | [] => None
               | _ => Some (round_int (digits_value 0 t))
               end.
Proof.
  intros H. unfold py_float.
  rewrite strip_by_keep.
  2:{ apply forallb_forall. intros u Hu. rewrite forallb_forall in H.
      rewrite (decimal_not_float_space u (H u Hu)). reflexivity. }
  destruct t as [|u r]; [reflexivity|]. rewrite H. reflexivity.
Qed.

Lemma special_float_cases w f : special_float w = Some f -> f = PosInf \/ f = NaN.
Proof.
  unfold special_float.
  destruct (_ || _)%bool; [intros H; injection H as <-; auto|].
  destruct (cps_eqb _ _); [intros H; injection H as <-; auto|discriminate].
Qed.

(** [float()] of a string gives nan, -inf, or the rounding of a
    non-negative integer (a double >= 0 or inf). *)
Lemma py_float_shape t f :
  py_float t = Some f ->
  f = NaN \/ f = NegInf \/ f = PosInf \/ exists v z, 0 <= v /\ round_int v = Fin z /\ f = Fin z.
Proof.
  unfold py_float. destruct (strip_by float_space t) as [|u r]; [discriminate|].
  destruct (forallb is_decimal (u :: r)).
  - assert (Hv : 0 <= digits_value 0 (u :: r)) by (apply digits_value_nonneg; lia).
    revert Hv. generalize (digits_value 0 (u :: r)). intros v Hv H. injection H as <-.
    destruct (round_int_nonneg _ Hv) as [[w [Hw _]]|Hw]; rewrite Hw; [|auto].
    right; right; right. exists v, w. auto.
  - destruct ((u =? 45)%N); [|destruct ((u =? 43)%N)].
    + destruct (special_float r) as [g|] eqn:E; [|discriminate]. simpl.
      intros H. injection H as <-.
      destruct (special_float_cases r g E) as [->| ->]; auto.
    + intros H. destruct (special_float_cases r f H) as [->| ->]; auto.
    + intros H. destruct (special_float_cases _ f H) as [->| ->]; auto.
Qed.

(** ** Lemmas on [re.search(r'\(?([\d,]+)\)?', ...)] *)

Lemma take_run_dc s : forallb is_dc (take_run s) = true.
Proof.
  induction s as [|u s IH]; [reflexivity|]. simpl.
  destruct (is_dc u) eqn:E; [simpl; rewrite E, IH|]; reflexivity.
Qed.

Lemma run_option_dc x g :
  match take_run x with [] => None | g' => Some g' end = Some g ->
  forallb is_dc g = true.
Proof.
  pose proof (take_run_dc x) as Hx.
  destruct (take_run x); intros H; [discriminate|]. now injection H as <-.
Qed.

Lemma match_at_dc s g : match_at s = Some g -> forallb is_dc g = true.
Proof.
  unfold match_at. destruct s as [|u s]; [apply run_option_dc|].
  destruct (u =? 40)%N; [|apply run_option_dc].
  pose proof (take_run_dc s) as Hs.
  destruct (take_run s); [apply run_option_dc|]. intros H. now injection H as <-.
Qed.

Lemma re_search_eq s :
  re_search s = match match_at s with
                | Some g => Some g
                | None => match s with
                          | _ :: s' => re_search s'
                          | [] => None
                          end
                end.
Proof. destruct s; reflexivity. Qed.

Lemma re_search_dc s g : re_search s = Some g -> forallb is_dc g = true.
Proof.
  induction s as [|u s IH]; intros H.
  - discriminate.
  - rewrite re_search_eq in H. destruct (match_at (u :: s)) eqn:E.
    + injection H as <-. apply (match_at_dc _ _ E).
    + apply IH, H.
Qed.

Lemma match_at_dc_head u s :
  is_dc u = true -> match_at (u :: s) = Some (take_run (u :: s)).
Proof.
  intros Hu. unfold match_at. rewrite (dc_not_open u Hu). simpl. rewrite Hu. reflexivity.
Qed.

Lemma re_search_some s : existsb is_dc s = true -> re_search s <> None.
Proof.
  induction s as [|u s IH]; intros H; [discriminate|].
  rewrite re_search_eq. simpl in H.
  destruct (is_dc u) eqn:Eu.
  - rewrite (match_at_dc_head u s Eu). discriminate.
  - destruct (match_at (u :: s)); [discriminate|]. apply IH, H.
Qed.

Lemma remove_commas_digits g :
  forallb is_dc g = true -> forallb is_decimal (remove_commas g) = true.
Proof.
  induction g as [|u g IH]; intros H; [reflexivity|].
  simpl in *. apply andb_true_iff in H as [Hu Hg].
  destruct (u =? 44)%N eqn:E; [apply IH, Hg|].
  simpl. unfold is_dc in Hu. rewrite E, orb_false_r in Hu. rewrite Hu. apply IH, Hg.
Qed.

Lemma remove_commas_id d : forallb is_decimal d = true -> remove_commas d = d.
Proof.
  induction d as [|u d IH]; [reflexivity|]. simpl.
  intros H. apply andb_true_iff in H as [Hu Hd].
  rewrite (decimal_not_comma u Hu), (IH Hd). reflexivity.
Qed.

Lemma remove_commas_nonempty a : existsb is_decimal a = true -> remove_commas a <> [].
Proof.
  induction a as [|u a IH]; [discriminate|]. simpl. intros H.
  destruct (is_decimal u) eqn:Eu.
  - rewrite (decimal_not_comma u Eu). discriminate.
  - destruct (u =? 44)%N; [apply IH, H|discriminate].
Qed.

Lemma take_run_app_dot d r :
  forallb is_dc d = true -> take_run (d ++ 46%N :: r) = d.
Proof.
  induction d as [|u d IH]; [reflexivity|]. simpl.
  intros H. apply andb_true_iff in H as [Hu Hd]. rewrite Hu, (IH Hd). reflexivity.
Qed.

(** [re.search] skips a prefix without [[\d,]] (an opening parenthesis
    right before the run is consumed by [\(?]). *)
Lemma re_search_after p q :
  existsb is_dc p = false ->
  match q with u :: _ => is_dc u = true | [] => False end ->
  re_search (p ++ q) = Some (take_run q).
Proof.
  intros Hp Hq. destruct q as [|u q]; [contradiction|].
  induction p as [|u' p IH].
  - rewrite re_search_eq. simpl app. rewrite (match_at_dc_head u q Hq). reflexivity.
  - simpl in Hp. apply orb_false_iff in Hp as [Hu' Hp].
    rewrite re_search_eq. simpl app. unfold match_at.
    assert (Hnil : take_run (u' :: p ++ u :: q) = []) by (simpl; rewrite Hu'; reflexivity).
    rewrite Hnil.
    destruct (u' =? 40)%N.
    + destruct p as [|u'' p].
      * simpl. rewrite Hq. reflexivity.
      * assert (Hnil2 : take_run ((u'' :: p) ++ u :: q) = []).
        { simpl in Hp |- *. apply orb_false_iff in Hp as [Hu'' _].
          rewrite Hu''. reflexivity. }
        rewrite Hnil2. apply IH, Hp.
    + apply IH, Hp.
Qed.

(** Every result of [clean_price] is the int 0, a double >= 0 (the
    rounding of a non-negative integer), inf, nan, or -inf read from an
    input with no digit and no comma. *)
Lemma clean_price_shape x :
  clean_price x = PInt 0
  \/ (exists v z, 0 <= v /\ round_int v = Fin z /\ clean_price x = PFloat (Fin z))
  \/ clean_price x = PFloat PosInf
  \/ clean_price x = PFloat NaN
  \/ (existsb is_dc (decode (py_str x)) = false /\ clean_price x = PFloat NegInf).
Proof.
  unfold clean_price. set (s := decode (py_str x)).
  destruct (re_search s) as [g|] eqn:Hs.
  - pose proof (remove_commas_digits g (re_search_dc s g Hs)) as Hd.
    rewrite (py_float_digits _ Hd).
    destruct (remove_commas g) as [|u r]; [now left|].
    assert (Hv : 0 <= digits_value 0 (u :: r)) by (apply digits_value_nonneg; lia).
    destruct (round_int_nonneg _ Hv) as [[w [Hw _]]|Hw]; rewrite Hw.
    + right; left. exists (digits_value 0 (u :: r)), w. auto.
    + right; right; left. reflexivity.
  - destruct (existsb is_dc s) eqn:E.
    { exfalso. exact (re_search_some s E Hs). }
    destruct (py_float (remove_commas s)) as [f|] eqn:Hf; [|now left].
    destruct (py_float_shape _ _ Hf) as [->|[->|[->|[v [z [Hv [Hz ->]]]]]]].
    + right; right; right; left. reflexivity.
    + right; right; right; right. auto.
    + right; right; left. reflexivity.
    + right; left. exists v, z. auto.
Qed.

(** ** Lemmas on [str] of an integer *)

Lemma uint_ascii d :
  all_chars (fun c => (byte c <? 128)%N) (NilEmpty.string_of_uint d) = true.
Proof. induction d; simpl; auto. Qed.

Lemma uint_decimal d :
  forallb is_decimal (map byte (list_ascii_of_string (NilEmpty.string_of_uint d))) = true.
Proof. induction d; simpl; auto. Qed.

Lemma digits_value_uint d acc :
  digits_value acc (map byte (list_ascii_of_string (NilEmpty.string_of_uint d)))
  = uint_value acc d.
Proof.
  revert acc. induction d; intros acc; simpl; rewrite ?IHd; try reflexivity.
  now rewrite Z.add_0_r.
Qed.

Lemma uint_value_acc d p : Zpos (Pos.of_uint_acc d p) = uint_value (Zpos p) d.
Proof.
  revert p. induction d; intros p; cbn [Pos.of_uint_acc uint_value];
    try reflexivity; rewrite IHd; f_equal; lia.
Qed.

Lemma uint_value_of_uint d : uint_value 0 d = Z.of_N (Pos.of_uint d).
Proof.
  induction d; simpl; try reflexivity; try exact IHd;
    rewrite uint_value_acc; reflexivity.
Qed.

Lemma n_to_string_value n :
  digits_value 0 (map byte (list_ascii_of_string (n_to_string n))) = Z.of_N n.
Proof.
  unfold n_to_string. rewrite digits_value_uint, uint_value_of_uint.
  change (Pos.of_uint (N.to_uint n)) with (N.of_uint (N.to_uint n)).
  now rewrite DecimalN.Unsigned.of_to.
Qed.

Lemma n_to_string_nonempty n : map byte (list_ascii_of_string (n_to_string n)) <> [].
Proof.
  intros H. pose proof (n_to_string_value n) as V. rewrite H in V.
  simpl in V. assert (n = 0%N) by lia. subst n. discriminate H.
Qed.

Lemma z_to_string_nonneg z : 0 <= z -> z_to_string z = n_to_string (Z.to_N z).
Proof. destruct z; intros H; [reflexivity|reflexivity|lia]. Qed.

(** A double [0 <= z < 10^16] is printed positionally and re-normalised
    to itself. *)
Lemma clean_price_fin z :
  0 <= z < 10 ^ 16 -> round_int z = Fin z -> clean_price (PFloat (Fin z)) = PFloat (Fin z).
Proof.
  intros Hz Hr. unfold clean_price, py_str, float_repr.
  rewrite Z.abs_eq by lia.
  destruct (Z.ltb_spec z (10 ^ 16)); [|lia].
  rewrite z_to_string_nonneg by lia.
  unfold n_to_string at 1.
  rewrite decode_ascii_app by apply uint_ascii.
  fold (n_to_string (Z.to_N z)).
  pose proof (n_to_string_value (Z.to_N z)) as V.
  pose proof (n_to_string_nonempty (Z.to_N z)) as Ne.
  pose proof (uint_decimal (N.to_uint (Z.to_N z))) as D.
  fold (n_to_string (Z.to_N z)) in D.
  rewrite Z2N.id in V by lia.
  revert V Ne D. generalize (map byte (list_ascii_of_string (n_to_string (Z.to_N z)))).
  intros d V Ne D.
  change (decode ".0") with [46%N; 48%N].
  assert (Dc : forallb is_dc d = true).
  { apply forallb_forall. intros u Hu. rewrite forallb_forall in D.
    apply decimal_dc, D, Hu. }
  assert (R : re_search (d ++ [46%N; 48%N]) = Some (take_run (d ++ [46%N; 48%N]))).
  { apply (re_search_after [] _ eq_refl). destruct d as [|u d]; [contradiction|].
    simpl in Dc |- *. apply andb_true_iff in Dc as [Hu _]. exact Hu. }
  rewrite R.
  rewrite (take_run_app_dot d _ Dc), (remove_commas_id d D), (py_float_digits d D).
  destruct d; [contradiction|]. rewrite V, Hr. reflexivity.
Qed.

(** ** Claims on the amount normaliser *)

(** C3: [clean_price] never raises: a failed [float] is caught and gives
    the int 0, so every input yields a number.  [""] and ["N/A"] give 0,
    ["12,345"] gives 12345.0 and ["(1,000)"] gives 1000.0 (compared with
    Python's [==]). *)
Theorem clean_price_total_and_examples :
  (forall x, match clean_price x with PStr _ => False | _ => True end)
  /\ py_eq (clean_price (PStr "")) (PFloat (Fin 0)) = true
  /\ py_eq (clean_price (PStr "12,345")) (PFloat (Fin 12345)) = true
  /\ py_eq (clean_price (PStr "(1,000)")) (PFloat (Fin 1000)) = true
  /\ py_eq (clean_price (PStr "N/A")) (PFloat (Fin 0)) = true.
Proof.
  split; [|vm_compute; repeat split].
  intros x. unfold clean_price. destruct (py_float _); exact I.
Qed.

(** C4 (counterexample): the leading minus of ["-123"] is dropped, the
    result is 123.0, not -123.0. *)
Lemma clean_price_minus_dropped :
  clean_price (PStr "-123") = PFloat (Fin 123)
  /\ py_eq (clean_price (PStr "-123")) (PFloat (Fin (-123))) = false.
Proof. vm_compute. split; reflexivity. Qed.

(** C4 (amended): [clean_price] never returns a negative number, except
    negative infinity read from an input with no digit (of any script)
    and no comma (such as ["-inf"]); in particular a sign in front of a
    numeral is dropped. *)
Theorem clean_price_nonneg_unless_neg_inf x :
  nonneg (clean_price x) = true
  \/ (existsb is_dc (decode (py_str x)) = false /\ clean_price x = PFloat NegInf).
Proof.
  destruct (clean_price_shape x) as [H|[[v [z [Hv [Hz H]]]]|[H|[H|H]]]].
  - left. rewrite H. reflexivity.
  - left. rewrite H. simpl. apply Z.leb_le.
    destruct (round_int_nonneg v Hv) as [[w [Hw Hw0]]|Hw]; rewrite Hz in Hw;
      [injection Hw as ->; exact Hw0 | discriminate].
  - left. rewrite H. reflexivity.
  - left. rewrite H. reflexivity.
  - right. exact H.
Qed.

(** C6 (counterexample): 10^16 is printed by [str] as ["1e+16"], whose
    first digit run is ["1"]: re-normalising gives 1.0. *)
Lemma clean_price_not_idempotent_1e16 :
  clean_price (PStr "10000000000000000") = PFloat (Fin (10 ^ 16))
  /\ py_str (clean_price (PStr "10000000000000000")) = "1e+16"
  /\ clean_price (clean_price (PStr "10000000000000000")) = PFloat (Fin 1).
Proof. vm_compute. repeat split. Qed.

(** C6 (amended): re-normalising a normalised amount gives the same number
    whenever that number is not finite (nan, inf, or -inf, also an inf
    from a digit run past the largest double) or is finite and below
    10^16. *)
Theorem clean_price_idempotent_below_1e16 x :
  match clean_price x with PFloat (Fin z) => z < 10 ^ 16 | _ => True end ->
  same_value (clean_price (clean_price x)) (clean_price x) = true.
Proof.
  destruct (clean_price_shape x) as [H|[[v [z [Hv [Hz H]]]]|[H|[H|[_ H]]]]];
    rewrite H; intros Hb; try reflexivity.
  assert (Hz0 : 0 <= z).
  { destruct (round_int_nonneg v Hv) as [[w [Hw Hw0]]|Hw]; rewrite Hz in Hw;
      [injection Hw as ->; exact Hw0 | discriminate]. }
  rewrite clean_price_fin.
  - unfold same_value, py_eq. simpl. now rewrite Z.eqb_refl.
  - lia.
  - apply (round_int_idem v z Hz). split; [lia|].
    apply (Z.lt_trans _ (10 ^ 16)); [exact Hb | reflexivity].
Qed.

(** C10: in an input whose first [[\d,]] run is followed by a decimal
    point, only that run counts: its digits (in any script, commas
    removed) are read as an integer, rounded to a double, and the
    fraction is dropped. *)
Theorem clean_price_truncates_fraction s p a b :
  decode s = (p ++ a ++ 46%N :: b)%list ->
  existsb is_dc p = false ->
  forallb is_dc a = true ->
  existsb is_decimal a = true ->
  clean_price (PStr s) = PFloat (round_int (digits_value 0 (remove_commas a))).
Proof.
  intros Hs Hp Ha Hd. unfold clean_price, py_str. rewrite Hs.
  rewrite (re_search_after p (a ++ 46%N :: b) Hp).
  2:{ destruct a as [|u a]; [discriminate|]. simpl in Ha |- *.
      apply andb_true_iff in Ha as [Hu _]. exact Hu. }
  rewrite (take_run_app_dot a b Ha).
  pose proof (remove_commas_digits a Ha) as D.
  pose proof (remove_commas_nonempty a Hd) as Ne.
  rewrite (py_float_digits _ D).
  destruct (remove_commas a); [contradiction|reflexivity].
Qed.

Lemma clean_price_idempotent_below_1e16_witness :
  (match clean_price (PStr "9,007,199,254,740,993") with
   | PFloat (Fin z) => z < 10 ^ 16 | _ => True end)
  /\ clean_price (PStr "9,007,199,254,740,993") = PFloat (Fin 9007199254740992)
  /\ same_value (clean_price (clean_price (PStr "9,007,199,254,740,993")))
                (clean_price (PStr "9,007,199,254,740,993")) = true.
Proof.
  assert (Hb : match clean_price (PStr "9,007,199,254,740,993") with
               | PFloat (Fin z) => z < 10 ^ 16 | _ => True end)
    by (vm_compute; reflexivity).
  split; [exact Hb|]. split; [vm_compute; reflexivity|].
  apply (clean_price_idempotent_below_1e16 (PStr "9,007,199,254,740,993") Hb).
Defined.

Lemma clean_price_truncates_fraction_witness :
  clean_price (PStr "１2.5") = PFloat (Fin 12)
  /\ clean_price (PStr "9007199254740993.5") = PFloat (Fin 9007199254740992).
Proof.
  split.
  - change (PFloat (Fin 12))
      with (PFloat (round_int (digits_value 0 (remove_commas [65297; 50]%N)))).
    apply (clean_price_truncates_fraction "１2.5" [] [65297; 50]%N [53]%N);
      vm_compute; reflexivity.
  - change (PFloat (Fin 9007199254740992))
      with (PFloat (round_int (digits_value 0 (remove_commas
              (map byte (list_ascii_of_string "9007199254740993")))))).
    apply (clean_price_truncates_fraction "9007199254740993.5" []
             (map byte (list_ascii_of_string "9007199254740993")) [53]%N);
      vm_compute; reflexivity.
Defined.
(** ** Float sums while the magnitudes stay within 2^53 *)

Lemma sum_Z_cons x l : sum_Z (x :: l) = x + sum_Z l.
Proof. reflexivity. Qed.

Lemma sum_abs_cons x l : sum_abs (x :: l) = Z.abs x + sum_abs l.
Proof. reflexivity. Qed.

Lemma sum_abs_nonneg l : 0 <= sum_abs l.
Proof. induction l as [|x l IH]; [reflexivity|]. rewrite sum_abs_cons. lia. Qed.

Lemma sum_abs_bound l : Z.abs (sum_Z l) <= sum_abs l.
Proof.
  induction l as [|x l IH]; [reflexivity|]. rewrite sum_Z_cons, sum_abs_cons. lia.
Qed.

Lemma sum_Z_firstn_skipn n l : sum_Z l = sum_Z (firstn n l) + sum_Z (skipn n l).
Proof.
  revert l. induction n as [|n IH]; intros l; [reflexivity|].
  destruct l as [|x l]; [reflexivity|]. simpl firstn; simpl skipn.
  rewrite !sum_Z_cons, (IH l). lia.
Qed.

Lemma sum_abs_firstn_skipn n l : sum_abs l = sum_abs (firstn n l) + sum_abs (skipn n l).
Proof. unfold sum_abs. rewrite <- firstn_map, <- skipn_map. apply sum_Z_firstn_skipn. Qed.

Lemma fadd_fin a b : Z.abs (a + b) <= 2 ^ 53 -> fadd (Fin a) (Fin b) = Fin (a + b).
Proof. intros H. apply round_int_small, H. Qed.

Lemma seq_sum_exact s l :
  Z.abs s + sum_abs l <= 2 ^ 53 -> seq_sum (Fin s) (map Fin l) = Fin (s + sum_Z l).
Proof.
  unfold seq_sum. revert s. induction l as [|x l IH]; intros s H; cbn [fold_left map].
  - f_equal. cbn. lia.
  - rewrite sum_abs_cons in H. pose proof (sum_abs_nonneg l).
    rewrite fadd_fin by lia. rewrite IH by lia. f_equal. rewrite sum_Z_cons. lia.
Qed.

Lemma add_block_exact r b :
  (length b <= length r)%nat ->
  sum_abs r + sum_abs b <= 2 ^ 53 ->
  exists r', add_block (map Fin r) (map Fin b) = map Fin r'
    /\ length r' = length r
    /\ sum_Z r' = sum_Z r + sum_Z b
    /\ sum_abs r' <= sum_abs r + sum_abs b.
Proof.
  revert b. induction r as [|x r IH]; intros b Hl H.
  - destruct b; [|simpl in Hl; lia]. exists []. repeat split; reflexivity.
  - destruct b as [|y b].
    + exists (x :: r). split; [reflexivity|]. split; [reflexivity|].
      change (sum_Z []) with 0. change (sum_abs []) with 0. split; lia.
    + simpl in Hl. rewrite !sum_abs_cons in H.
      pose proof (sum_abs_nonneg r). pose proof (sum_abs_nonneg b).
      destruct (IH b ltac:(lia) ltac:(lia)) as [r' [E [L [Sm A]]]].
      exists ((x + y) :: r'). cbn [map add_block]. rewrite E, fadd_fin by lia.
      split; [reflexivity|]. simpl length. rewrite !sum_Z_cons, !sum_abs_cons.
      repeat split; lia.
Qed.

Lemma accumulate_exact k r l :
  length r = 8%nat ->
  sum_abs r + sum_abs l <= 2 ^ 53 ->
  exists r', accumulate k (map Fin r) (map Fin l) = map Fin r'
    /\ length r' = 8%nat
    /\ sum_Z r' + sum_Z (skipn (8 * k) l) = sum_Z r + sum_Z l
    /\ sum_abs r' + sum_abs (skipn (8 * k) l) <= sum_abs r + sum_abs l.
Proof.
  revert r l. induction k as [|k IH]; intros r l Hr H.
  - exists r. simpl. repeat split; auto; lia.
  - cbn [accumulate]. rewrite firstn_map, skipn_map.
    rewrite (sum_abs_firstn_skipn 8 l) in H.
    pose proof (sum_abs_nonneg (skipn 8 l)).
    destruct (add_block_exact r (firstn 8 l)) as [r1 [E1 [L1 [Sm1 A1]]]];
      [rewrite length_firstn; lia | lia |].
    rewrite E1.
    destruct (IH r1 (skipn 8 l)) as [r' [E [L [Sm A]]]]; [lia | lia |].
    exists r'. rewrite E. repeat split; [exact L| |].
    + replace (8 * S k)%nat with (8 * k + 8)%nat by lia. rewrite <- skipn_skipn.
      rewrite Sm, Sm1, (sum_Z_firstn_skipn 8 l). lia.
    + replace (8 * S k)%nat with (8 * k + 8)%nat by lia. rewrite <- skipn_skipn.
      rewrite (sum_abs_firstn_skipn 8 l). lia.
Qed.

Lemma combine8_exact r :
  length r = 8%nat -> sum_abs r <= 2 ^ 53 -> combine8 (map Fin r) = Fin (sum_Z r).
Proof.
  intros L H.
  destruct r as [|r0 [|r1 [|r2 [|r3 [|r4 [|r5 [|r6 [|r7 [|r8 r]]]]]]]]];
    try discriminate L.
  unfold sum_abs in H. cbn [map] in H. rewrite !sum_Z_cons in H |- *.
  change (sum_Z []) with 0 in *.
  unfold combine8. cbn [map nth]. rewrite !fadd_fin by lia. f_equal. lia.
Qed.

Lemma block_exact l :
  (8 <= length l)%nat -> sum_abs l <= 2 ^ 53 ->
  seq_sum (combine8 (accumulate ((length l - length l mod 8) / 8 - 1)
                       (firstn 8 (map Fin l)) (skipn 8 (map Fin l))))
          (skipn (length l - length l mod 8) (map Fin l))
  = Fin (sum_Z l).
Proof.
  intros Hn H. rewrite firstn_map, !skipn_map.
  set (n := length l) in *.
  set (m := (n - n mod 8)%nat).
  assert (Hq : m = (8 * (m / 8 - 1) + 8)%nat).
  { pose proof (Nat.div_mod_eq n 8). pose proof (Nat.mod_upper_bound n 8 ltac:(lia)).
    assert (Em : m = (n / 8 * 8)%nat) by (unfold m; lia).
    rewrite Em, Nat.div_mul by lia. lia. }
  pose proof (sum_abs_firstn_skipn 8 l) as Sa.
  pose proof (sum_Z_firstn_skipn 8 l) as Sz.
  pose proof (sum_abs_nonneg (firstn 8 l)). pose proof (sum_abs_nonneg (skipn 8 l)).
  destruct (accumulate_exact (m / 8 - 1) (firstn 8 l) (skipn 8 l)) as [r' [E [L [Sm A]]]];
    [rewrite length_firstn; lia | lia |].
  rewrite E.
  pose proof (sum_abs_nonneg (skipn (8 * (m / 8 - 1)) (skipn 8 l))).
  pose proof (sum_abs_nonneg r').
  rewrite combine8_exact by (auto; lia).
  rewrite Hq, <- skipn_skipn.
  pose proof (sum_abs_bound r').
  rewrite seq_sum_exact by lia. f_equal. lia.
Qed.

(** numpy's pairwise sum is exact while the magnitudes add up to at most
    2^53, whatever the order of the additions. *)
Lemma pairwise_sum_fuel_exact fuel l :
  sum_abs l <= 2 ^ 53 -> pairwise_sum_fuel fuel (map Fin l) = Fin (sum_Z l).
Proof.
  revert l. induction fuel as [|fuel IH]; intros l H; cbn [pairwise_sum_fuel];
    rewrite length_map.
  - destruct (Nat.ltb_spec (length l) 8); [|destruct (Nat.leb_spec (length l) 128)].
    + rewrite seq_sum_exact by (simpl; lia). reflexivity.
    + apply block_exact; [lia | exact H].
    + rewrite seq_sum_exact by (simpl; lia). reflexivity.
  - destruct (Nat.ltb_spec (length l) 8); [|destruct (Nat.leb_spec (length l) 128)].
    + rewrite seq_sum_exact by (simpl; lia). reflexivity.
    + apply block_exact; [lia | exact H].
    + set (n2 := (length l / 2 - length l / 2 mod 8)%nat).
      rewrite firstn_map, skipn_map.
      pose proof (sum_abs_firstn_skipn n2 l) as Sa.
      pose proof (sum_Z_firstn_skipn n2 l) as Sz.
      pose proof (sum_abs_nonneg (firstn n2 l)). pose proof (sum_abs_nonneg (skipn n2 l)).
      rewrite !IH by lia. pose proof (sum_abs_bound l).
      rewrite fadd_fin by lia. f_equal. lia.
Qed.

Lemma series_fsum_exact l : sum_abs l <= 2 ^ 53 -> series_fsum (map Fin l) = Fin (sum_Z l).
Proof.
  intros H. unfold series_fsum, pairwise_sum.
  assert (E : map (fun f => if is_nan f then Fin 0 else f) (map Fin l) = map Fin l)
    by (clear H; induction l; simpl; congruence).
  rewrite E, pairwise_sum_fuel_exact by exact H.
  pose proof (sum_abs_bound l). rewrite fadd_fin by lia. reflexivity.
Qed.

(** pandas' compensated group sum is exact in the same range: the
    compensation stays 0. *)
Lemma kahan_exact s v :
  Z.abs s + Z.abs v <= 2 ^ 53 -> kahan_add (Fin s, Fin 0) (Fin v) = (Fin (s + v), Fin 0).
Proof.
  intros H. unfold kahan_add. cbn [is_nan]. cbv zeta. unfold fsub.
  cbn [neg_float Z.opp].
  rewrite (fadd_fin v 0) by lia. rewrite Z.add_0_r.
  rewrite (fadd_fin s v) by lia. cbn [neg_float].
  rewrite (fadd_fin (s + v) (- s)) by lia.
  rewrite (fadd_fin (s + v + - s) (- v)) by lia.
  replace (s + v + - s + - v) with 0 by lia. reflexivity.
Qed.


(** ** Claim on the prefix key *)

(** C5: [extract_prefix] gives "Snacks" for "Snacks (Imported)" and the
    sentinel for "" and "   ", but for " (x)", blanks before the first
    parenthesis, the stripped prefix is the empty string, not the
    sentinel. *)
Theorem extract_prefix_blank_before_paren :
  extract_prefix (PStr "Snacks (Imported)") = "Snacks"
  /\ extract_prefix (PStr "") = other
  /\ extract_prefix (PStr "   ") = other
  /\ extract_prefix (PStr " (x)") = ""
  /\ other <> "".
Proof. vm_compute. repeat split; discriminate. Qed.

(** ** Claims on the group sums and the comparison *)

Lemma series_insert_sum k v m :
  sum_Z (map snd (series_insert k v m)) = v + sum_Z (map snd m).
Proof.
  induction m as [|[k' v'] m IH]; simpl; [lia|].
  destruct (String.compare k k'); simpl; [lia|lia|rewrite IH; lia].
Qed.

Lemma fold_insert_sum rows m :
  sum_Z (map snd (fold_left (fun m r => series_insert (fst r) (snd r) m) rows m))
  = sum_Z (map snd m) + sum_Z (map snd rows).
Proof.
  revert m. induction rows as [|r rows IH]; intros m; simpl; [lia|].
  rewrite IH, series_insert_sum. lia.
Qed.

Lemma acc_insert_exact k v m :
  sum_abs (map snd m) + Z.abs v <= 2 ^ 53 ->
  acc_insert k (Fin v) (lift_acc m) = lift_acc (series_insert k v m).
Proof.
  unfold lift_acc. induction m as [|[k' v'] m IH]; intros H.
  - cbn [map acc_insert series_insert fst snd].
    change (sum_abs (map snd [])) with 0 in H.
    rewrite kahan_exact by lia. reflexivity.
  - cbn [map acc_insert series_insert fst snd] in H |- *.
    rewrite sum_abs_cons in H. pose proof (sum_abs_nonneg (map snd m)).
    destruct (String.compare k k').
    + rewrite kahan_exact by lia. reflexivity.
    + rewrite kahan_exact by lia. reflexivity.
    + cbn [map fst snd]. rewrite IH by lia. reflexivity.
Qed.

Lemma series_insert_abs k v m :
  sum_abs (map snd (series_insert k v m)) <= sum_abs (map snd m) + Z.abs v.
Proof.
  induction m as [|[k' v'] m IH]; cbn [series_insert map snd].
  - rewrite sum_abs_cons. change (sum_abs []) with 0. lia.
  - destruct (String.compare k k'); cbn [map snd]; rewrite !sum_abs_cons; lia.
Qed.

Lemma fold_insert_abs rows m :
  sum_abs (map snd (fold_left (fun m r => series_insert (fst r) (snd r) m) rows m))
  <= sum_abs (map snd m) + sum_abs (map snd rows).
Proof.
  revert m. induction rows as [|r rows IH]; intros m; cbn [fold_left map].
  - change (sum_abs []) with 0. lia.
  - rewrite sum_abs_cons. pose proof (series_insert_abs (fst r) (snd r) m).
    specialize (IH (series_insert (fst r) (snd r) m)). lia.
Qed.

Lemma fold_acc_exact rows m :
  sum_abs (map snd m) + sum_abs (map snd rows) <= 2 ^ 53 ->
  fold_left (fun m r => acc_insert (fst r) (snd r) m) (float_rows rows) (lift_acc m)
  = lift_acc (fold_left (fun m r => series_insert (fst r) (snd r) m) rows m).
Proof.
  unfold float_rows. revert m. induction rows as [|r rows IH]; intros m H;
    cbn [fold_left map fst snd] in H |- *; [reflexivity|].
  rewrite sum_abs_cons in H. pose proof (sum_abs_nonneg (map snd rows)).
  rewrite acc_insert_exact by lia. apply IH.
  pose proof (series_insert_abs (fst r) (snd r) m). lia.
Qed.

(** Below 2^53 in total magnitude, the float group sums are the exact
    group sums. *)
Lemma groupby_fsum_exact rows :
  sum_abs (map snd rows) <= 2 ^ 53 ->
  groupby_fsum (float_rows rows) = map (fun p => (fst p, Fin (snd p))) (groupby_sum rows).
Proof.
  intros H. unfold groupby_fsum, groupby_sum.
  change (@nil (string * (pyfloat * pyfloat))) with (lift_acc []).
  rewrite fold_acc_exact by (change (sum_abs (map snd [])) with 0; lia).
  unfold lift_acc. rewrite map_map. reflexivity.
Qed.

(** C9 (counterexample): with 2^53 in group "a" and 1 twice in group "b",
    the total of the amounts is 2^53 (each 1 added to 2^53 rounds back to
    it), but the group sums are 2^53 and 2, and their total is 2^53 + 2. *)
Lemma groupby_fsum_rounding :
  groupby_fsum (float_rows rows_2_53) = [("a", Fin (2 ^ 53)); ("b", Fin 2)]
  /\ series_fsum (map snd (float_rows rows_2_53)) = Fin (2 ^ 53)
  /\ series_fsum (map snd (groupby_fsum (float_rows rows_2_53))) = Fin (2 ^ 53 + 2).
Proof. vm_compute. repeat split. Qed.

(** C9 (amended): for finite amounts whose magnitudes add up to at most
    2^53, no sum rounds: the float total of the group sums equals the
    float total of the amounts, and both are the exact sum. *)
Theorem groupby_fsum_total rows :
  sum_abs (map snd rows) <= 2 ^ 53 ->
  series_fsum (map snd (groupby_fsum (float_rows rows)))
  = series_fsum (map snd (float_rows rows))
  /\ series_fsum (map snd (float_rows rows)) = Fin (sum_Z (map snd rows)).
Proof.
  intros H.
  assert (Er : map snd (float_rows rows) = map Fin (map snd rows))
    by (unfold float_rows; rewrite !map_map; reflexivity).
  rewrite groupby_fsum_exact, Er by exact H.
  rewrite map_map. cbn [snd].
  rewrite <- (map_map snd Fin).
  pose proof (fold_insert_abs rows []) as B.
  pose proof (fold_insert_sum rows []) as S0.
  change (sum_abs (map snd [])) with 0 in B.
  change (sum_Z (map snd [])) with 0 in S0.
  fold (groupby_sum rows) in B, S0.
  rewrite !series_fsum_exact by lia.
  split; [f_equal; lia | reflexivity].
Qed.

Lemma groupby_fsum_total_witness :
  sum_abs (map snd [("b", 3); ("a", 2 ^ 52); ("b", 2 ^ 52 - 3)]) <= 2 ^ 53
  /\ series_fsum (map snd (groupby_fsum (float_rows [("b", 3); ("a", 2 ^ 52); ("b", 2 ^ 52 - 3)])))
     = series_fsum (map snd (float_rows [("b", 3); ("a", 2 ^ 52); ("b", 2 ^ 52 - 3)]))
  /\ series_fsum (map snd (float_rows [("b", 3); ("a", 2 ^ 52); ("b", 2 ^ 52 - 3)]))
     = Fin (2 ^ 53).
Proof.
  assert (H : sum_abs (map snd [("b", 3); ("a", 2 ^ 52); ("b", 2 ^ 52 - 3)]) <= 2 ^ 53)
    by (apply Z.leb_le; vm_compute; reflexivity).
  split; [exact H|].
  apply (groupby_fsum_total [("b", 3); ("a", 2 ^ 52); ("b", 2 ^ 52 - 3)] H).
Defined.


(** C1: with ten keys present in both periods (combined amount 2 each), a
    key present only in the previous period with amount 1000 gets nan in
    the summed series, is sorted last and is left out of the top ten and
    of the comparison rows. *)
Theorem top10_drops_single_period_key :
  In ("x", None) (series_add (groupby_sum prev_with_x) (groupby_sum curr_without_x))
  /\ In ("x", 1000) (groupby_sum prev_with_x)
  /\ top10_groups prev_with_x curr_without_x = ten_keys
  /\ map row_key (compare_groups prev_with_x curr_without_x) = ten_keys
  /\ map (fun r => row_prev r + row_curr r) (compare_groups prev_with_x curr_without_x)
     = repeat 2 10.
Proof.
  vm_compute. repeat split.
  - do 10 right. left. reflexivity.
  - do 10 right. left. reflexivity.
Qed.

(** C2: every comparison row has [delta = current - previous] and
    [rate = delta / previous * 100] with a zero previous value replaced by
    1; on prev = [A:100, B:50], curr = [A:150, C:20] the rows are
    A: 100 -> 150, +50, 50%; B: 50 -> 0, -50, -100%; C: 0 -> 20, +20,
    2000%. *)
Theorem compare_rows_delta_rate :
  (forall prev curr,
     Forall (fun r =>
               row_delta r = row_curr r - row_prev r
               /\ (row_rate r
                   == inject_Z (row_delta r)
                      / inject_Z (if Z.eqb (row_prev r) 0 then 1 else row_prev r)
                      * inject_Z 100)%Q)
            (compare_groups prev curr))
  /\ map (fun r => (row_key r, row_prev r, row_curr r, row_delta r))
         (compare_groups [("A", 100); ("B", 50)] [("A", 150); ("C", 20)])
     = [("A", 100, 150, 50); ("B", 50, 0, -50); ("C", 0, 20, 20)]
  /\ Forall2 Qeq
       (map row_rate (compare_groups [("A", 100); ("B", 50)] [("A", 150); ("C", 20)]))
       [50%Q; (-100)%Q; 2000%Q].
Proof.
  split; [|split].
  - intros prev curr. unfold compare_groups. apply Forall_forall.
    intros r Hr. apply in_map_iff in Hr as [[k [c p]] [<- _]].
    simpl. split; reflexivity.
  - vm_compute. reflexivity.
  - vm_compute. repeat constructor.
Qed.

(** ** Claim on the single-file report metrics *)

(** C7: on an empty current period the average order value is 0 (its
    division is guarded), but the top-5 share divides 0 by a zero total:
    it is undefined, not 0. *)
Theorem empty_period_metrics :
  avg_order_value [] = 0%Q /\ sales_ratio [] = None.
Proof. split; reflexivity. Qed.

(** ** Lemmas on the loader *)

Lemma find_replace l c v c' :
  option_map snd (find (has_key c')
    (map (fun p => if String.eqb (fst p) c then (c, v) else p) l))
  = if String.eqb c' c
    then (if existsb (has_key c) l then Some v else None)
    else option_map snd (find (has_key c') l).
Proof.
  induction l as [|[k w] l IH]; simpl.
  - destruct (String.eqb c' c); reflexivity.
  - unfold has_key in *. simpl in *.
    destruct (String.eqb_spec k c) as [->|Hkc]; simpl.
    + destruct (String.eqb_spec c c'); destruct (String.eqb_spec c' c); subst; try congruence.
      reflexivity.
    + destruct (String.eqb_spec k c'); subst.
      * destruct (String.eqb_spec c' c); [congruence|reflexivity].
      * rewrite IH. reflexivity.
Qed.
Lemma find_append l c v c' :
  existsb (has_key c) l = false ->
  option_map snd (find (has_key c') (l ++ [(c, v)]))
  = if String.eqb c' c then Some v else option_map snd (find (has_key c') l).
Proof.
  induction l as [|[k w] l IH]; simpl; intros H.
  - unfold has_key. simpl. rewrite String.eqb_sym. destruct (String.eqb c' c); reflexivity.
  - unfold has_key in *. simpl in *. apply orb_false_iff in H as [Hk Hl].
    destruct (String.eqb_spec k c'); subst.
    + destruct (String.eqb_spec c' c); [discriminate|].
      reflexivity.
    + apply IH, Hl.
Qed.

Lemma existsb_replace_other l c v c' :
  c' <> c ->
  existsb (has_key c') (map (fun p => if String.eqb (fst p) c then (c, v) else p) l)
  = existsb (has_key c') l.
Proof.
  intros Hne. induction l as [|[k w] l IH]; [reflexivity|].
  unfold has_key in *. simpl in *.
  destruct (String.eqb_spec k c) as [->|Hkc]; simpl.
  - rewrite (proj2 (String.eqb_neq c c')) by congruence. exact IH.
  - rewrite IH. reflexivity.
Qed.

Lemma existsb_replace l c v c' :
  existsb (has_key c) l = true ->
  existsb (has_key c') (map (fun p => if String.eqb (fst p) c then (c, v) else p) l)
  = existsb (has_key c') l || String.eqb c' c.
Proof.
  intros E. destruct (String.eqb_spec c' c) as [->|Hne].
  - rewrite orb_true_r. induction l as [|[k w] l IH]; [discriminate|].
    unfold has_key in *. simpl in *.
    destruct (String.eqb_spec k c); simpl.
    + rewrite String.eqb_refl. reflexivity.
    + rewrite (proj2 (String.eqb_neq k c) n). apply IH, E.
  - rewrite orb_false_r. apply existsb_replace_other, Hne.
Qed.

Lemma get_col_set_col t c v c' :
  get_col (set_col t c v) c' = if String.eqb c' c then Some v else get_col t c'.
Proof.
  unfold set_col. destruct (has_col t c) eqn:E; unfold get_col, has_col in *; simpl;
    change (fun p : string * list pyval => fst p =? c) with (has_key c) in *;
    change (fun p : string * list pyval => fst p =? c') with (has_key c').
  - rewrite find_replace, E. reflexivity.
  - rewrite find_append by exact E. reflexivity.
Qed.

Lemma has_col_set_col t c v c' :
  has_col (set_col t c v) c' = has_col t c' || String.eqb c' c.
Proof.
  unfold set_col. destruct (has_col t c) eqn:E; unfold has_col in *; simpl;
    change (fun p : string * list pyval => fst p =? c) with (has_key c) in *;
    change (fun p : string * list pyval => fst p =? c') with (has_key c').
  - apply existsb_replace, E.
  - rewrite existsb_app. simpl. unfold has_key. simpl.
    rewrite orb_false_r, (String.eqb_sym c c'). reflexivity.
Qed.

Lemma nrows_set_col t c v : nrows (set_col t c v) = nrows t.
Proof. unfold set_col. destruct (has_col t c); reflexivity. Qed.

Lemma key_in_cons_eq c rest : key_in (c :: rest) c = true.
Proof. unfold key_in. simpl. now rewrite String.eqb_refl. Qed.

Lemma key_in_cons_neq col c rest : c <> col -> key_in (col :: rest) c = key_in rest c.
Proof. intros H. unfold key_in. simpl. now rewrite (proj2 (String.eqb_neq c col) H). Qed.

Lemma fill_required_none cols label t :
  fill_required cols label t = None <->
  exists c, In c cols /\ has_col t c = false /\ c <> col_branch /\ c <> col_month.
Proof.
  revert t. induction cols as [|col rest IH]; intros t; simpl.
  - split; [discriminate|]. intros [c [[] _]].
  - destruct (has_col t col) eqn:Hc.
    + rewrite IH. split; intros [c [Hin [Hh [Hb Hm]]]].
      * exists c. auto.
      * exists c. destruct Hin as [<-|Hin]; [congruence|]. auto.
    + destruct (String.eqb_spec col col_branch) as [Eb|Nb]; [|
      destruct (String.eqb_spec col col_month) as [Em|Nm]].
      * rewrite IH. split; intros [c [Hin [Hh [Hb Hm]]]].
        -- rewrite has_col_set_col in Hh. apply orb_false_iff in Hh as [Hh _].
           exists c. auto.
        -- destruct Hin as [<-|Hin]; [contradiction|]. exists c.
           rewrite has_col_set_col, Hh. simpl.
           repeat split; auto. apply String.eqb_neq. congruence.
      * rewrite IH. split; intros [c [Hin [Hh [Hb Hm]]]].
        -- rewrite has_col_set_col in Hh. apply orb_false_iff in Hh as [Hh _].
           exists c. auto.
        -- destruct Hin as [<-|Hin]; [contradiction|]. exists c.
           rewrite has_col_set_col, Hh. simpl.
           repeat split; auto. apply String.eqb_neq. congruence.
      * split; [intros _; exists col; auto | reflexivity].
Qed.

Lemma fill_required_get cols label t t' c :
  fill_required cols label t = Some t' ->
  nrows t' = nrows t /\
  get_col t' c =
    if has_col t c then get_col t c
    else if key_in cols c && String.eqb c col_branch
    then Some (repeat (PStr unassigned_branch) (nrows t))
    else if key_in cols c && String.eqb c col_month
    then Some (repeat (PStr label) (nrows t))
    else get_col t c.
Proof.
  revert t. induction cols as [|col rest IH]; intros t H; simpl in H.
  - injection H as <-. split; [reflexivity|]. destruct (has_col _ c); reflexivity.
  - destruct (has_col t col) eqn:Hc; [|
      destruct (String.eqb_spec col col_branch) as [Eb|Nb]; [|
      destruct (String.eqb_spec col col_month) as [Em|Nm]]].
    + destruct (IH t H) as [Hn Hg]. split; [exact Hn|]. rewrite Hg.
      destruct (has_col t c) eqn:Ht; [reflexivity|].
      rewrite key_in_cons_neq by congruence. reflexivity.
    + destruct (IH _ H) as [Hn Hg]. rewrite nrows_set_col in Hn.
      split; [exact Hn|]. rewrite Hg, has_col_set_col, get_col_set_col, nrows_set_col.
      destruct (String.eqb_spec c col) as [->|Nc].
      * rewrite orb_true_r, Hc, key_in_cons_eq, Eb, String.eqb_refl. reflexivity.
      * rewrite orb_false_r, key_in_cons_neq by exact Nc. reflexivity.
    + destruct (IH _ H) as [Hn Hg]. rewrite nrows_set_col in Hn.
      split; [exact Hn|]. rewrite Hg, has_col_set_col, get_col_set_col, nrows_set_col.
      destruct (String.eqb_spec c col) as [->|Nc].
      * rewrite orb_true_r, Hc, key_in_cons_eq, Em, String.eqb_refl. reflexivity.
      * rewrite orb_false_r, key_in_cons_neq by exact Nc. reflexivity.
    + discriminate.
Qed.

(** ** Claim on the loader *)

(** C8: for a file of a supported format, loading fails (with no table at
    all) exactly when one of 분류명, 상품명, 주문수, 실판매금액 is missing;
    a missing 지점명 is filled with the unassigned-branch sentinel and a
    missing 월 with the label passed to the loader, while columns present
    are kept. *)
Theorem load_missing_columns ext df label :
  supported_ext ext = true ->
  (load_and_preprocess ext df label = None <->
     exists c, In c [col_category; col_product; col_orders; col_amount]
               /\ has_col df c = false)
  /\ (forall t, load_and_preprocess ext df label = Some t ->
        get_col t col_branch =
          (if has_col df col_branch then get_col df col_branch
           else Some (repeat (PStr unassigned_branch) (nrows df)))
        /\ get_col t col_month =
          (if has_col df col_month then get_col df col_month
           else Some (repeat (PStr label) (nrows df)))).
Proof.
  intros Hext. unfold load_and_preprocess, preprocess. rewrite Hext. split.
  - destruct (fill_required required_cols label df) eqn:F.
    + split; [discriminate|]. intros [c [Hin Hh]]. exfalso.
      assert (Hn : fill_required required_cols label df = None).
      { apply fill_required_none. exists c.
        destruct Hin as [<-|[<-|[<-|[<-|[]]]]];
          repeat split; try assumption; try (simpl; tauto); discriminate. }
      congruence.
    + split; [intros _|reflexivity].
      apply fill_required_none in F as [c [Hin [Hh [Hb Hm]]]].
      exists c. split; [|exact Hh].
      destruct Hin as [<-|[<-|[<-|[<-|[<-|[<-|[]]]]]]];
        try contradiction; simpl; tauto.
  - intros t Ht. destruct (fill_required required_cols label df) as [t1|] eqn:F;
      [|discriminate].
    injection Ht as <-. rewrite !get_col_set_col.
    destruct (fill_required_get _ _ _ _ col_branch F) as [_ G1].
    destruct (fill_required_get _ _ _ _ col_month F) as [_ G2].
    rewrite G1, G2. split; destruct (has_col df _); reflexivity.
Qed.

Lemma load_missing_columns_witness :
  supported_ext ".CSV" = true
  /\ load_and_preprocess ".CSV"
       (mk_table 1 [(col_category, [PStr "a (b)"]); (col_product, [PStr "p"]);
                    (col_orders, [PInt 1]); (col_amount, [PStr "1,000"])]) "전달"
     <> None.
Proof.
  assert (He : supported_ext ".CSV" = true) by reflexivity.
  split; [exact He|].
  destruct (load_missing_columns ".CSV"
       (mk_table 1 [(col_category, [PStr "a (b)"]); (col_product, [PStr "p"]);
                    (col_orders, [PInt 1]); (col_amount, [PStr "1,000"])]) "전달" He)
    as [[Hnone _] _].
  intros H. apply Hnone in H as [c [Hin Hh]].
  destruct Hin as [<-|[<-|[<-|[<-|[]]]]]; discriminate.
Defined.

(** ** Lemmas on ranking, grouping and the report *)

Ltac rank_cases :=
  unfold rank_geq in *; simpl in *; rewrite ?Z.gtb_ltb in *;
  repeat match goal with
         | |- context [Z.ltb ?a ?b] => destruct (Z.ltb_spec a b)
         | H : context [Z.ltb ?a ?b] |- _ => destruct (Z.ltb_spec a b)
         end; simpl in *; try discriminate; try reflexivity; lia.

Lemma ranks_before_geq x y : ranks_before x y = true -> rank_geq x y = true.
Proof. destruct x, y; rank_cases. Qed.

Lemma not_before_geq x y : ranks_before x y = false -> rank_geq y x = true.
Proof. intros H. unfold rank_geq. now rewrite H. Qed.

Lemma rank_geq_trans x y z : rank_geq x y = true -> rank_geq y z = true -> rank_geq x z = true.
Proof. destruct x, y, z; rank_cases. Qed.

Section Ranking.
Context {A : Type} (rk : A -> option Z).

Lemma insert_desc_perm x l : Permutation (insert_desc x rk l) (x :: l).
Proof.
  induction l as [|y l IH]; simpl; [reflexivity|].
  destruct (ranks_before _ _); [reflexivity|].
  rewrite IH. apply perm_swap.
Qed.

Lemma sort_desc_perm l : Permutation (sort_desc rk l) l.
Proof.
  unfold sort_desc. assert (G : forall acc, Permutation (fold_left (fun acc x => insert_desc x rk acc) l acc) (acc ++ l)).
  { induction l as [|x l IH]; intros acc; simpl; [now rewrite app_nil_r|].
    rewrite IH, insert_desc_perm. simpl. apply Permutation_middle. }
  apply G.
Qed.

Lemma insert_desc_sorted x l : Sorted (geq_at rk) l -> Sorted (geq_at rk) (insert_desc x rk l).
Proof.
  induction 1 as [|y l Hs IH Hhd]; simpl; [repeat constructor|].
  destruct (ranks_before (rk (snd x)) (rk (snd y))) eqn:E.
  - constructor; [constructor; assumption|]. constructor. apply ranks_before_geq, E.
  - constructor; [exact IH|].
    destruct l as [|z l]; simpl.
    + constructor. apply not_before_geq, E.
    + inversion Hhd; subst.
      destruct (ranks_before (rk (snd x)) (rk (snd z))); constructor;
        [apply not_before_geq, E | assumption].
Qed.

Lemma sort_desc_sorted l : StronglySorted (geq_at rk) (sort_desc rk l).
Proof.
  apply Sorted_StronglySorted.
  { intros a b c H1 H2. exact (rank_geq_trans _ _ _ H1 H2). }
  unfold sort_desc. assert (G : forall acc, Sorted (geq_at rk) acc ->
    Sorted (geq_at rk) (fold_left (fun acc x => insert_desc x rk acc) l acc)).
  { induction l as [|x l IH]; intros acc Hacc; simpl; [exact Hacc|].
    apply IH, insert_desc_sorted, Hacc. }
  apply G. constructor.
Qed.

Lemma sorted_firstn_skipn (R : string * A -> string * A -> Prop) n l x y :
  StronglySorted R l -> In x (firstn n l) -> In y (skipn n l) -> R x y.
Proof.
  revert l. induction n as [|n IH]; intros l Hs Hx Hy; [destruct Hx|].
  destruct l as [|a l]; [destruct Hx|]. simpl in Hx, Hy.
  apply StronglySorted_inv in Hs as [Hs Hall].
  destruct Hx as [<-|Hx].
  - rewrite Forall_forall in Hall. apply Hall. rewrite <- (firstn_skipn n l). apply in_or_app. now right.
  - eapply IH; eauto.
Qed.

End Ranking.

(** ** String order *)

Lemma string_compare_ot x y : String_as_OT.compare x y = String.compare x y.
Proof. revert y; induction x; destruct y; simpl; reflexivity. Qed.

Lemma string_lt_trans x y z :
  String.compare x y = Lt -> String.compare y z = Lt -> String.compare x z = Lt.
Proof.
  rewrite <- !string_compare_ot. intros H1 H2.
  destruct String_as_OT.lt_strorder as [_ T]. exact (T _ _ _ H1 H2).
Qed.

Lemma string_lt_neq x y : String.compare x y = Lt -> x <> y.
Proof.
  intros H <-. rewrite <- string_compare_ot in H.
  destruct String_as_OT.lt_strorder as [I _]. exact (I x H).
Qed.

(** ** Keys of a series *)

Lemma forall_key_lt {A} (x : string * A) l :
  Forall (key_lt x) l <-> forall k, In k (map fst l) -> String.compare (fst x) k = Lt.
Proof.
  rewrite Forall_forall. split; intros H.
  - intros k Hk. apply in_map_iff in Hk as [y [<- Hy]]. apply H, Hy.
  - intros y Hy. apply H, in_map, Hy.
Qed.

Lemma sorted_cons_keys {A} (x : string * A) l :
  StronglySorted key_lt (x :: l) <->
  StronglySorted key_lt l /\ forall k, In k (map fst l) -> String.compare (fst x) k = Lt.
Proof.
  rewrite <- forall_key_lt. split.
  - intros H. apply StronglySorted_inv in H. exact H.
  - intros [H1 H2]. constructor; assumption.
Qed.

Lemma sorted_key_notin {A} (x : string * A) l :
  StronglySorted key_lt (x :: l) -> ~ In (fst x) (map fst l).
Proof.
  intros H Hin. apply sorted_cons_keys in H as [_ H].
  exact (string_lt_neq _ _ (H _ Hin) eq_refl).
Qed.

Lemma sorted_nodup_keys {A} (l : list (string * A)) :
  StronglySorted key_lt l -> NoDup (map fst l).
Proof.
  induction l as [|x l IH]; intros H; simpl; constructor.
  - apply sorted_key_notin, H.
  - apply IH. apply StronglySorted_inv in H. apply H.
Qed.

Lemma map_fst_none {A B} (l : list (string * A)) :
  map fst (map (fun p => (fst p, @None B)) l) = map fst l.
Proof. rewrite map_map. reflexivity. Qed.

(** ** Sums by key *)

Lemma sum_key_nil k : sum_key k [] = 0.
Proof. reflexivity. Qed.

Lemma sum_key_cons k k' v m :
  sum_key k ((k', v) :: m) = (if String.eqb k' k then v else 0) + sum_key k m.
Proof. unfold sum_key, sum_Z. simpl. destruct (String.eqb k' k); simpl; lia. Qed.

Lemma sum_key_app k l1 l2 : sum_key k (l1 ++ l2) = sum_key k l1 + sum_key k l2.
Proof.
  induction l1 as [|[k' v] l1 IH]; [reflexivity|].
  simpl. rewrite !sum_key_cons, IH. lia.
Qed.

Lemma sum_key_absent k m : ~ In k (map fst m) -> sum_key k m = 0.
Proof.
  induction m as [|[k' v] m IH]; intros H; [reflexivity|].
  simpl in H. rewrite sum_key_cons, IH by tauto.
  destruct (String.eqb_spec k' k); [tauto|lia].
Qed.

Lemma sum_key_sorted_in m k v :
  StronglySorted key_lt m -> In (k, v) m -> sum_key k m = v.
Proof.
  induction m as [|[k' v'] m IH]; intros Hs Hin; [destruct Hin|].
  pose proof (sorted_key_notin _ _ Hs) as Hn. simpl in Hn.
  apply StronglySorted_inv in Hs as [Hs _].
  rewrite sum_key_cons. destruct Hin as [E|Hin].
  - injection E as <- <-. rewrite String.eqb_refl, sum_key_absent by exact Hn. lia.
  - destruct (String.eqb_spec k' k) as [<-|Hne].
    + exfalso. apply Hn. apply in_map_iff. exists (k', v). auto.
    + rewrite IH by assumption. lia.
Qed.

Lemma sum_key_head m k v :
  StronglySorted key_lt ((k, v) :: m) -> sum_key k ((k, v) :: m) = v.
Proof. intros H. apply sum_key_sorted_in; [exact H | left; reflexivity]. Qed.

Lemma sum_key_tail m k' v k :
  k <> k' -> sum_key k ((k', v) :: m) = sum_key k m.
Proof. intros H. rewrite sum_key_cons. destruct (String.eqb_spec k' k); [congruence|lia]. Qed.

Lemma sum_key_filter ks k rows :
  sum_key k (filter (fun r => key_in ks (fst r)) rows)
  = if key_in ks k then sum_key k rows else 0.
Proof.
  induction rows as [|[k' v] rows IH]; simpl.
  - destruct (key_in ks k); reflexivity.
  - rewrite sum_key_cons.
    destruct (String.eqb_spec k' k) as [<-|Hne];
      destruct (key_in ks k') eqn:E; rewrite ?sum_key_cons, ?IH, ?E;
      rewrite ?String.eqb_refl; try (rewrite (proj2 (String.eqb_neq k' k) Hne)); try lia;
      destruct (key_in ks k); lia.
Qed.

(** ** [groupby(...).sum()] *)

Lemma series_insert_keys k v m k' :
  In k' (map fst (series_insert k v m)) <-> k' = k \/ In k' (map fst m).
Proof.
  induction m as [|[k0 v0] m IH]; simpl; [firstorder congruence|].
  destruct (String.compare k k0) eqn:E; simpl.
  - apply String.compare_eq_iff in E. subst. firstorder congruence.
  - firstorder congruence.
  - rewrite IH. tauto.
Qed.

Lemma series_insert_sorted k v m :
  StronglySorted key_lt m -> StronglySorted key_lt (series_insert k v m).
Proof.
  induction m as [|[k0 v0] m IH]; simpl; intros Hs.
  - repeat constructor.
  - pose proof Hs as Hs0. apply sorted_cons_keys in Hs as [Hs Hk]. simpl in Hk.
    destruct (String.compare k k0) eqn:E.
    + apply sorted_cons_keys. split; [exact Hs | exact Hk].
    + apply sorted_cons_keys. split; [exact Hs0|].
      simpl. intros k' [<-|Hk']; [exact E|].
      eapply string_lt_trans; [exact E | apply Hk, Hk'].
    + apply sorted_cons_keys. split; [apply IH, Hs|]. simpl.
      intros k' Hk'. apply series_insert_keys in Hk' as [->|Hk']; [|apply Hk, Hk'].
      rewrite String.compare_antisym, E. reflexivity.
Qed.

Lemma series_insert_sum_key k v m k' :
  sum_key k' (series_insert k v m) = sum_key k' m + (if String.eqb k k' then v else 0).
Proof.
  induction m as [|[k0 v0] m IH]; simpl.
  - rewrite sum_key_cons, sum_key_nil. lia.
  - destruct (String.compare k k0) eqn:E; rewrite ?sum_key_cons.
    + apply String.compare_eq_iff in E. subst. destruct (String.eqb k0 k'); lia.
    + lia.
    + rewrite IH. lia.
Qed.

Lemma groupby_fold_props rows m :
  let g := fold_left (fun m r => series_insert (fst r) (snd r) m) rows m in
  (StronglySorted key_lt m -> StronglySorted key_lt g)
  /\ (forall k, In k (map fst g) <-> In k (map fst m) \/ In k (map fst rows))
  /\ (forall k, sum_key k g = sum_key k m + sum_key k rows).
Proof.
  revert m. induction rows as [|[k v] rows IH]; intros m; simpl.
  - split; [auto|]. split; [tauto|]. intros k. unfold sum_key, sum_Z. simpl. lia.
  - destruct (IH (series_insert k v m)) as [H1 [H2 H3]]. split; [|split].
    + intros Hs. apply H1, series_insert_sorted, Hs.
    + intros k'. rewrite H2, series_insert_keys. simpl.
      split.
      * intros [[E|E]|E]; [subst; right; left; reflexivity | left; exact E | right; right; exact E].
      * intros [E|[E|E]]; [left; right; exact E | subst; left; left; reflexivity | right; exact E].
    + intros k'. rewrite H3, series_insert_sum_key, sum_key_cons.
      rewrite (String.eqb_sym k k'). destruct (String.eqb_spec k' k); lia.
Qed.

Lemma groupby_sum_sorted rows : StronglySorted key_lt (groupby_sum rows).
Proof. apply (groupby_fold_props rows []). constructor. Qed.

Lemma groupby_sum_keys rows k : In k (map fst (groupby_sum rows)) <-> In k (map fst rows).
Proof. rewrite (proj1 (proj2 (groupby_fold_props rows []))). simpl. tauto. Qed.

Lemma groupby_sum_key rows k : sum_key k (groupby_sum rows) = sum_key k rows.
Proof. rewrite (proj2 (proj2 (groupby_fold_props rows []))). reflexivity. Qed.

(** ** Series addition *)

Lemma series_add_nil_l b : series_add [] b = map (fun p => (fst p, None)) b.
Proof. destruct b as [|[] b]; reflexivity. Qed.

Lemma series_add_nil_r a : series_add a [] = map (fun p => (fst p, None)) a.
Proof. destruct a as [|[] a]; reflexivity. Qed.

Lemma series_add_cons ka va a kb vb b :
  series_add ((ka, va) :: a) ((kb, vb) :: b) =
  match String.compare ka kb with
  | Eq => (ka, Some (va + vb)) :: series_add a b
  | Lt => (ka, None) :: series_add a ((kb, vb) :: b)
  | Gt => (kb, None) :: series_add ((ka, va) :: a) b
  end.
Proof. reflexivity. Qed.

Lemma series_add_keys a b k :
  In k (map fst (series_add a b)) <-> In k (map fst a) \/ In k (map fst b).
Proof.
  revert b. induction a as [|[ka va] a IHa]; intros b.
  - rewrite series_add_nil_l, map_fst_none. simpl. tauto.
  - induction b as [|[kb vb] b IHb].
    + rewrite series_add_nil_r, map_fst_none. simpl. tauto.
    + rewrite series_add_cons. destruct (String.compare ka kb) eqn:E; simpl.
      * apply String.compare_eq_iff in E. subst. rewrite IHa. tauto.
      * rewrite IHa. simpl. tauto.
      * rewrite IHb. simpl. tauto.
Qed.

Lemma key_in_iff ks k : key_in ks k = true <-> In k ks.
Proof.
  unfold key_in. rewrite existsb_exists. split.
  - intros [k' [H E]]. apply String.eqb_eq in E. subst. exact H.
  - intros H. exists k. split; [exact H | apply String.eqb_refl].
Qed.

Lemma key_in_false ks k : ~ In k ks -> key_in ks k = false.
Proof. intros H. destruct (key_in ks k) eqn:E; [|reflexivity]. apply key_in_iff in E. contradiction. Qed.

Lemma above_notin k (ks : list string) :
  (forall k', In k' ks -> String.compare k k' = Lt) -> ~ In k ks.
Proof. intros H Hin. exact (string_lt_neq _ _ (H k Hin) eq_refl). Qed.

Lemma gt_lt k k' : String.compare k k' = Gt -> String.compare k' k = Lt.
Proof. intros E. rewrite String.compare_antisym, E. reflexivity. Qed.

Lemma sorted_map_keys {A B} (f : string * A -> B) l :
  StronglySorted key_lt l -> StronglySorted key_lt (map (fun p => (fst p, f p)) l).
Proof.
  induction l as [|x l IH]; intros H; simpl; [constructor|].
  apply sorted_cons_keys in H as [H1 H2]. apply sorted_cons_keys. split; [apply IH, H1|].
  simpl. intros k Hk. rewrite map_map in Hk. apply H2, Hk.
Qed.

Lemma series_add_sorted a b :
  StronglySorted key_lt a -> StronglySorted key_lt b -> StronglySorted key_lt (series_add a b).
Proof.
  revert b. induction a as [|[ka va] a IHa]; intros b Ha.
  - intros Hb. rewrite series_add_nil_l. apply (sorted_map_keys (fun _ => None)), Hb.
  - induction b as [|[kb vb] b IHb]; intros Hb.
    + rewrite series_add_nil_r. apply (sorted_map_keys (fun _ => None)), Ha.
    + pose proof Ha as Ha0. pose proof Hb as Hb0.
      apply sorted_cons_keys in Ha as [Ha Hka], Hb as [Hb Hkb]. simpl in Hka, Hkb.
      rewrite series_add_cons. destruct (String.compare ka kb) eqn:E.
      * apply String.compare_eq_iff in E. subst kb.
        apply sorted_cons_keys. split; [apply IHa; assumption|].
        simpl. intros k Hk. apply series_add_keys in Hk as [Hk|Hk]; auto.
      * apply sorted_cons_keys. split; [apply IHa; assumption|].
        simpl. intros k Hk. apply series_add_keys in Hk as [Hk|[<-|Hk]]; auto.
        eapply string_lt_trans; [exact E | auto].
      * apply sorted_cons_keys. split; [apply IHb; assumption|].
        intros k Hk. cbn [fst]. apply gt_lt in E.
        apply series_add_keys in Hk as [[<-|Hk]|Hk]; auto.
        eapply string_lt_trans; [exact E | auto].
Qed.

Lemma in_keys {A} k (o : A) (l : list (string * A)) : In (k, o) l -> In k (map fst l).
Proof. intros H. apply (in_map (@fst string A)) in H. exact H. Qed.

Lemma below_neq k0 k (ks : list string) :
  (forall k', In k' ks -> String.compare k0 k' = Lt) -> In k ks -> k <> k0.
Proof. intros H Hin E. subst. exact (string_lt_neq _ _ (H _ Hin) eq_refl). Qed.

Lemma key_in_cons ks k k' :
  key_in (k' :: ks) k = String.eqb k k' || key_in ks k.
Proof. reflexivity. Qed.

Lemma series_add_value a b k o :
  StronglySorted key_lt a -> StronglySorted key_lt b -> In (k, o) (series_add a b) ->
  o = if key_in (map fst a) k && key_in (map fst b) k
      then Some (sum_key k a + sum_key k b) else None.
Proof.
  revert b. induction a as [|[ka va] a IHa]; intros b Ha.
  - intros Hb H. rewrite series_add_nil_l in H.
    apply in_map_iff in H as [[k' v'] [E _]]. injection E as <- <-. reflexivity.
  - induction b as [|[kb vb] b IHb]; intros Hb H.
    + rewrite series_add_nil_r in H.
      apply in_map_iff in H as [[k' v'] [E _]]. injection E as <- <-.
      rewrite andb_false_r. reflexivity.
    + pose proof Ha as Ha0. pose proof Hb as Hb0.
      apply sorted_cons_keys in Ha as [Ha Hka], Hb as [Hb Hkb]. simpl in Hka, Hkb.
      cbn [map fst]. rewrite !key_in_cons.
      rewrite series_add_cons in H. destruct (String.compare ka kb) eqn:E.
      * apply String.compare_eq_iff in E. subst kb. destruct H as [H|H].
        -- injection H as <- <-. rewrite String.eqb_refl. simpl.
           rewrite (sum_key_head _ _ _ Ha0), (sum_key_head _ _ _ Hb0). reflexivity.
        -- pose proof (in_keys _ _ _ H) as Hk. apply series_add_keys in Hk.
           assert (Hne : k <> ka) by
             (destruct Hk as [Hk|Hk]; [exact (below_neq _ _ _ Hka Hk) | exact (below_neq _ _ _ Hkb Hk)]).
           rewrite (proj2 (String.eqb_neq k ka) Hne), !sum_key_tail by exact Hne.
           apply IHa; assumption.
      * destruct H as [H|H].
        -- injection H as <- <-.
           rewrite (proj2 (String.eqb_neq ka kb) (string_lt_neq _ _ E)).
           rewrite (key_in_false (map fst b) ka); [rewrite !andb_false_r; reflexivity|].
           apply above_notin. intros k' Hk'. eapply string_lt_trans; [exact E | auto].
        -- pose proof (in_keys _ _ _ H) as Hk. apply series_add_keys in Hk.
           assert (Hne : k <> ka).
           { destruct Hk as [Hk|Hk]; [exact (below_neq _ _ _ Hka Hk)|].
             simpl in Hk. intros ->. destruct Hk as [Hk|Hk].
             - exact (string_lt_neq _ _ E (eq_sym Hk)).
             - exact (string_lt_neq _ _ (string_lt_trans _ _ _ E (Hkb _ Hk)) eq_refl). }
           rewrite (proj2 (String.eqb_neq k ka) Hne), (sum_key_tail a) by exact Hne.
           rewrite (IHa ((kb, vb) :: b) Ha Hb0 H). cbn [map fst]. rewrite key_in_cons. reflexivity.
      * apply gt_lt in E. destruct H as [H|H].
        -- injection H as <- <-.
           rewrite (proj2 (String.eqb_neq kb ka) (string_lt_neq _ _ E)).
           rewrite (key_in_false (map fst a) kb); [reflexivity|].
           apply above_notin. intros k' Hk'. eapply string_lt_trans; [exact E | auto].
        -- pose proof (in_keys _ _ _ H) as Hk. apply series_add_keys in Hk.
           assert (Hne : k <> kb).
           { destruct Hk as [Hk|Hk]; [|exact (below_neq _ _ _ Hkb Hk)].
             simpl in Hk. intros ->. destruct Hk as [Hk|Hk].
             - exact (string_lt_neq _ _ E (eq_sym Hk)).
             - exact (string_lt_neq _ _ (string_lt_trans _ _ _ E (Hka _ Hk)) eq_refl). }
           rewrite (proj2 (String.eqb_neq k kb) Hne), (sum_key_tail b) by exact Hne.
           rewrite (IHb Hb H). cbn [map fst]. rewrite key_in_cons. reflexivity.
Qed.

(** ** Outer merge *)

Lemma outer_merge_nil_l p : outer_merge [] p = map (fun q => (fst q, (0, snd q))) p.
Proof. destruct p as [|[] p]; reflexivity. Qed.

Lemma outer_merge_nil_r c : outer_merge c [] = map (fun q => (fst q, (snd q, 0))) c.
Proof. destruct c as [|[] c]; reflexivity. Qed.

Lemma outer_merge_cons kc vc c kp vp p :
  outer_merge ((kc, vc) :: c) ((kp, vp) :: p) =
  match String.compare kc kp with
  | Eq => (kc, (vc, vp)) :: outer_merge c p
  | Lt => (kc, (vc, 0)) :: outer_merge c ((kp, vp) :: p)
  | Gt => (kp, (0, vp)) :: outer_merge ((kc, vc) :: c) p
  end.
Proof. reflexivity. Qed.

Lemma outer_merge_keys c p k :
  In k (map fst (outer_merge c p)) <-> In k (map fst c) \/ In k (map fst p).
Proof.
  revert p. induction c as [|[kc vc] c IHc]; intros p.
  - rewrite outer_merge_nil_l, map_map. simpl. tauto.
  - induction p as [|[kp vp] p IHp].
    + rewrite outer_merge_nil_r, map_map. simpl. tauto.
    + rewrite outer_merge_cons. destruct (String.compare kc kp) eqn:E; simpl.
      * apply String.compare_eq_iff in E. subst. rewrite IHc. tauto.
      * rewrite IHc. simpl. tauto.
      * rewrite IHp. simpl. tauto.
Qed.

Lemma outer_merge_sorted c p :
  StronglySorted key_lt c -> StronglySorted key_lt p -> StronglySorted key_lt (outer_merge c p).
Proof.
  revert p. induction c as [|[kc vc] c IHc]; intros p Hc.
  - intros Hp. rewrite outer_merge_nil_l. apply (sorted_map_keys (fun q => (0, snd q))), Hp.
  - induction p as [|[kp vp] p IHp]; intros Hp.
    + rewrite outer_merge_nil_r. apply (sorted_map_keys (fun q => (snd q, 0))), Hc.
    + pose proof Hc as Hc0. pose proof Hp as Hp0.
      apply sorted_cons_keys in Hc as [Hc Hkc], Hp as [Hp Hkp]. simpl in Hkc, Hkp.
      rewrite outer_merge_cons. destruct (String.compare kc kp) eqn:E.
      * apply String.compare_eq_iff in E. subst kp.
        apply sorted_cons_keys. split; [apply IHc; assumption|].
        intros k Hk. cbn [fst]. apply outer_merge_keys in Hk as [Hk|Hk]; auto.
      * apply sorted_cons_keys. split; [apply IHc; assumption|].
        intros k Hk. cbn [fst]. apply outer_merge_keys in Hk as [Hk|[<-|Hk]]; auto.
        eapply string_lt_trans; [exact E | auto].
      * apply sorted_cons_keys. split; [apply IHp; assumption|].
        intros k Hk. cbn [fst]. apply gt_lt in E.
        apply outer_merge_keys in Hk as [[<-|Hk]|Hk]; auto.
        eapply string_lt_trans; [exact E | auto].
Qed.

Lemma outer_merge_value c p k x y :
  StronglySorted key_lt c -> StronglySorted key_lt p -> In (k, (x, y)) (outer_merge c p) ->
  x = sum_key k c /\ y = sum_key k p.
Proof.
  revert p. induction c as [|[kc vc] c IHc]; intros p Hc.
  - intros Hp H. rewrite outer_merge_nil_l in H.
    apply in_map_iff in H as [[k' v'] [E Hin]]. injection E as <- <- <-.
    split; [reflexivity|]. symmetry. apply sum_key_sorted_in; assumption.
  - induction p as [|[kp vp] p IHp]; intros Hp H.
    + rewrite outer_merge_nil_r in H.
      apply in_map_iff in H as [[k' v'] [E Hin]]. injection E as <- <- <-.
      split; [|reflexivity]. symmetry. apply sum_key_sorted_in; assumption.
    + pose proof Hc as Hc0. pose proof Hp as Hp0.
      apply sorted_cons_keys in Hc as [Hc Hkc], Hp as [Hp Hkp]. simpl in Hkc, Hkp.
      rewrite outer_merge_cons in H. destruct (String.compare kc kp) eqn:E.
      * apply String.compare_eq_iff in E. subst kp. destruct H as [H|H].
        -- injection H as <- <- <-.
           rewrite (sum_key_head _ _ _ Hc0), (sum_key_head _ _ _ Hp0). split; reflexivity.
        -- pose proof (in_keys _ _ _ H) as Hk. apply outer_merge_keys in Hk.
           assert (Hne : k <> kc) by
             (destruct Hk as [Hk|Hk]; [exact (below_neq _ _ _ Hkc Hk) | exact (below_neq _ _ _ Hkp Hk)]).
           rewrite !sum_key_tail by exact Hne. apply IHc; assumption.
      * destruct H as [H|H].
        -- injection H as <- <- <-. rewrite (sum_key_head _ _ _ Hc0).
           rewrite sum_key_absent; [split; reflexivity|].
           apply above_notin. simpl. intros k' [<-|Hk']; [exact E|].
           eapply string_lt_trans; [exact E | auto].
        -- pose proof (in_keys _ _ _ H) as Hk. apply outer_merge_keys in Hk.
           assert (Hne : k <> kc).
           { destruct Hk as [Hk|Hk]; [exact (below_neq _ _ _ Hkc Hk)|].
             simpl in Hk. intros ->. destruct Hk as [Hk|Hk].
             - exact (string_lt_neq _ _ E (eq_sym Hk)).
             - exact (string_lt_neq _ _ (string_lt_trans _ _ _ E (Hkp _ Hk)) eq_refl). }
           rewrite (sum_key_tail c) by exact Hne. apply IHc; assumption.
      * apply gt_lt in E. destruct H as [H|H].
        -- injection H as <- <- <-. rewrite (sum_key_head _ _ _ Hp0).
           rewrite sum_key_absent; [split; reflexivity|].
           apply above_notin. simpl. intros k' [<-|Hk']; [exact E|].
           eapply string_lt_trans; [exact E | auto].
        -- pose proof (in_keys _ _ _ H) as Hk. apply outer_merge_keys in Hk.
           assert (Hne : k <> kp).
           { destruct Hk as [Hk|Hk]; [|exact (below_neq _ _ _ Hkp Hk)].
             simpl in Hk. intros ->. destruct Hk as [Hk|Hk].
             - exact (string_lt_neq _ _ E (eq_sym Hk)).
             - exact (string_lt_neq _ _ (string_lt_trans _ _ _ E (Hkc _ Hk)) eq_refl). }
           rewrite (sum_key_tail p) by exact Hne. apply IHp; assumption.
Qed.

(** ** Top ten and comparison *)

Lemma in_firstn_in {A} n (l : list A) x : In x (firstn n l) -> In x l.
Proof. intros H. rewrite <- (firstn_skipn n l). apply in_or_app. left. exact H. Qed.

Lemma nodup_firstn {A} n (l : list A) : NoDup l -> NoDup (firstn n l).
Proof. intros H. rewrite <- (firstn_skipn n l) in H. exact (NoDup_app_remove_r _ _ H). Qed.

Lemma key_in_keys_groupby rows k :
  key_in (map fst (groupby_sum rows)) k = key_in (map fst rows) k.
Proof.
  destruct (key_in (map fst rows) k) eqn:E.
  - apply key_in_iff, groupby_sum_keys, key_in_iff, E.
  - apply key_in_false. rewrite groupby_sum_keys. intros H. apply key_in_iff in H. congruence.
Qed.

Lemma group_sum_sorted prev curr :
  StronglySorted key_lt (series_add (groupby_sum prev) (groupby_sum curr)).
Proof. apply series_add_sorted; apply groupby_sum_sorted. Qed.

(** Line 138 in full: the summed series has exactly one entry per key of
    either period; it holds the sum of both periods' amounts for a key
    present in both, and nan for a key present in one period only. *)
Theorem group_sum_entries prev curr :
  NoDup (map fst (series_add (groupby_sum prev) (groupby_sum curr)))
  /\ forall k o,
     In (k, o) (series_add (groupby_sum prev) (groupby_sum curr)) <->
     (In k (map fst prev) \/ In k (map fst curr))
     /\ o = if key_in (map fst prev) k && key_in (map fst curr) k
            then Some (sum_key k prev + sum_key k curr) else None.
Proof.
  split; [apply sorted_nodup_keys, group_sum_sorted|]. intros k o.
  assert (V : forall o', In (k, o') (series_add (groupby_sum prev) (groupby_sum curr)) ->
            o' = if key_in (map fst prev) k && key_in (map fst curr) k
                 then Some (sum_key k prev + sum_key k curr) else None).
  { intros o' H. rewrite (series_add_value _ _ _ _ (groupby_sum_sorted prev) (groupby_sum_sorted curr) H).
    rewrite !key_in_keys_groupby, !groupby_sum_key. reflexivity. }
  split.
  - intros H. split; [|exact (V _ H)].
    apply in_keys, series_add_keys in H. rewrite !groupby_sum_keys in H. exact H.
  - intros [Hk ->].
    rewrite <- (groupby_sum_keys prev), <- (groupby_sum_keys curr), <- series_add_keys in Hk.
    apply in_map_iff in Hk as [[k' o'] [E Hin]]. simpl in E. subst k'.
    rewrite <- (V _ Hin). exact Hin.
Qed.

(** Lines 138-139: every key [top10_groups] keeps has an entry in the summed
    series that ranks at least as high as the entry of every key it leaves
    out (larger sums first, nan lowest). *)
Theorem top10_groups_ranked prev curr k :
  In k (top10_groups prev curr) ->
  exists v, In (k, v) (series_add (groupby_sum prev) (groupby_sum curr))
    /\ forall k' v', In (k', v') (series_add (groupby_sum prev) (groupby_sum curr)) ->
         ~ In k' (top10_groups prev curr) -> rank_geq v v' = true.
Proof.
  unfold top10_groups.
  set (gs := series_add (groupby_sum prev) (groupby_sum curr)).
  set (S := sort_desc (fun v => v) gs).
  intros Hk. apply in_map_iff in Hk as [[k0 v] [E Hin]]. simpl in E. subst k0.
  exists v. split.
  - apply (Permutation_in _ (sort_desc_perm (fun v => v) gs)), (in_firstn_in 10), Hin.
  - intros k' v' Hin' Hout.
    apply (Permutation_in _ (Permutation_sym (sort_desc_perm (fun v => v) gs))) in Hin'.
    fold S in Hin'. rewrite <- (firstn_skipn 10 S) in Hin'.
    apply in_app_or in Hin' as [Hin'|Hin'].
    + exfalso. apply Hout. apply in_map_iff. exists (k', v'). auto.
    + exact (sorted_firstn_skipn _ 10 S (k, v) (k', v') (sort_desc_sorted _ gs) Hin Hin').
Qed.

(** Line 139: the chosen keys are distinct and there are ten of them, or
    all the keys when the summed series has fewer than ten. *)
Theorem top10_groups_distinct prev curr :
  NoDup (top10_groups prev curr)
  /\ length (top10_groups prev curr)
     = Nat.min 10 (length (series_add (groupby_sum prev) (groupby_sum curr))).
Proof.
  unfold top10_groups.
  set (gs := series_add (groupby_sum prev) (groupby_sum curr)).
  split.
  - rewrite <- firstn_map. apply nodup_firstn.
    apply (Permutation_NoDup (Permutation_map fst (Permutation_sym (sort_desc_perm (fun v => v) gs)))).
    apply sorted_nodup_keys, group_sum_sorted.
  - rewrite length_map, length_firstn, (Permutation_length (sort_desc_perm _ gs)). reflexivity.
Qed.

Lemma compare_groups_unfold prev curr :
  compare_groups prev curr =
  map make_row (outer_merge
    (groupby_sum (filter (fun r => key_in (top10_groups prev curr) (fst r)) curr))
    (groupby_sum (filter (fun r => key_in (top10_groups prev curr) (fst r)) prev))).
Proof. reflexivity. Qed.

Lemma filter_keys ks (rows : list (string * Z)) k :
  In k (map fst (filter (fun r => key_in ks (fst r)) rows)) <-> In k (map fst rows) /\ In k ks.
Proof.
  split.
  - intros H. apply in_map_iff in H as [[k' v] [E H]]. simpl in E. subst k'.
    apply filter_In in H as [H Hk]. split; [apply (in_keys _ _ _ H) | apply key_in_iff, Hk].
  - intros [H Hk]. apply in_map_iff in H as [[k' v] [E H]]. simpl in E. subst k'.
    apply (in_keys _ v). apply filter_In. split; [exact H | apply key_in_iff, Hk].
Qed.

(** Lines 140-142 and 253-255: every comparison row is for a chosen key
    and carries that key's full totals in both periods (0 where the key
    has no row in a period). *)
Theorem compare_rows_period_totals prev curr r :
  In r (compare_groups prev curr) ->
  In (row_key r) (top10_groups prev curr)
  /\ row_curr r = sum_key (row_key r) curr
  /\ row_prev r = sum_key (row_key r) prev.
Proof.
  rewrite compare_groups_unfold. set (ks := top10_groups prev curr).
  intros H. apply in_map_iff in H as [[k [c p]] [<- Hin]]. simpl.
  pose proof (in_keys _ _ _ Hin) as Hk.
  apply outer_merge_value in Hin as [-> ->]; [|apply groupby_sum_sorted..].
  rewrite !groupby_sum_key, !sum_key_filter.
  apply outer_merge_keys in Hk. rewrite !groupby_sum_keys, !filter_keys in Hk.
  assert (Hks : In k ks) by (destruct Hk as [[_ Hk]|[_ Hk]]; exact Hk).
  rewrite (proj2 (key_in_iff ks k) Hks). auto.
Qed.

Lemma compare_keys_nodup prev curr : NoDup (map row_key (compare_groups prev curr)).
Proof.
  rewrite compare_groups_unfold, map_map.
  rewrite (map_ext (fun e => row_key (make_row e)) fst) by (intros [k [c p]]; reflexivity).
  apply sorted_nodup_keys, outer_merge_sorted; apply groupby_sum_sorted.
Qed.

(** Lines 140-142 and 253-255: the comparison has exactly one row per
    chosen key. *)
Theorem compare_keys_top10 prev curr :
  NoDup (map row_key (compare_groups prev curr))
  /\ forall k, In k (map row_key (compare_groups prev curr)) <-> In k (top10_groups prev curr).
Proof.
  split; [apply compare_keys_nodup|].
  rewrite compare_groups_unfold. set (ks := top10_groups prev curr).
  rewrite map_map.
  rewrite (map_ext (fun e => row_key (make_row e)) fst) by (intros [k [c p]]; reflexivity).
  intros k. rewrite outer_merge_keys, !groupby_sum_keys, !filter_keys. split.
  - intros [[_ H]|[_ H]]; exact H.
  - intros H. assert (Hg : In k (map fst (series_add (groupby_sum prev) (groupby_sum curr)))).
    { unfold ks, top10_groups in H. apply in_map_iff in H as [[k' v] [E H]]. simpl in E. subst k'.
      apply (in_keys _ v).
      apply (Permutation_in _ (sort_desc_perm (fun v => v) _)), (in_firstn_in 10), H. }
    apply series_add_keys in Hg. rewrite !groupby_sum_keys in Hg. tauto.
Qed.

(** ** Report metrics *)

(** Lines 242-248: with a positive previous total, the sentence's verb is
    "증가" exactly when the stated change rate is positive. *)
Theorem trend_word_matches_rate total_prev total_curr :
  0 < total_prev ->
  (trend_word total_prev total_curr = "증가" <-> (0 < diff_rate total_prev total_curr)%Q).
Proof.
  intros Hp. unfold trend_word, diff_rate.
  rewrite (proj2 (Z.eqb_neq total_prev 0)) by lia.
  destruct total_prev as [|p|p]; [lia| |lia].
  unfold Qlt, Qdiv, Qmult, Qinv, inject_Z. simpl.
  rewrite Z.gtb_ltb. destruct (Z.ltb_spec 0 (total_curr - Z.pos p)).
  - split; [intros _; lia | reflexivity].
  - split; [discriminate | lia].
Qed.

(** ** Largest and smallest changes *)

Lemma by_key_fst rows : map fst (by_key rows) = map row_key rows.
Proof. unfold by_key. rewrite map_map. reflexivity. Qed.

Lemma in_by_key r rows : In r rows -> In (row_key r, r) (by_key rows).
Proof. intros H. unfold by_key. apply in_map_iff. exists r. auto. Qed.

Lemma ranked_first rk rows r r' :
  In r (map snd (firstn 3 (sort_desc rk (by_key rows)))) -> In r' rows ->
  ~ In r' (map snd (firstn 3 (sort_desc rk (by_key rows)))) ->
  rank_geq (rk r) (rk r') = true.
Proof.
  set (S := sort_desc rk (by_key rows)). intros Hr Hr' Hout.
  apply in_map_iff in Hr as [[k r0] [E Hr]]. simpl in E. subst r0.
  apply in_by_key, (Permutation_in _ (Permutation_sym (sort_desc_perm rk _))) in Hr'.
  fold S in Hr'. rewrite <- (firstn_skipn 3 S) in Hr'.
  apply in_app_or in Hr' as [Hr'|Hr'].
  - exfalso. apply Hout. apply in_map_iff. exists (row_key r', r'). auto.
  - exact (sorted_firstn_skipn _ 3 S (k, r) (row_key r', r') (sort_desc_sorted rk _) Hr Hr').
Qed.

(** Line 259: a row listed among the three largest changes changed at
    least as much as every row left out. *)
Theorem top3_largest rows r r' :
  In r (top3 rows) -> In r' rows -> ~ In r' (top3 rows) -> row_delta r' <= row_delta r.
Proof.
  intros Hr Hr' Hout. pose proof (ranked_first _ rows r r' Hr Hr' Hout) as G.
  unfold rank_geq, ranks_before in G. rewrite Z.gtb_ltb in G.
  destruct (Z.ltb_spec (row_delta r) (row_delta r')); [discriminate|lia].
Qed.

(** Line 260: a row listed among the three smallest changes changed at
    most as much as every row left out. *)
Theorem bottom3_smallest rows r r' :
  In r (bottom3 rows) -> In r' rows -> ~ In r' (bottom3 rows) -> row_delta r <= row_delta r'.
Proof.
  intros Hr Hr' Hout. pose proof (ranked_first _ rows r r' Hr Hr' Hout) as G.
  unfold rank_geq, ranks_before in G. rewrite Z.gtb_ltb in G.
  destruct (Z.ltb_spec (- row_delta r) (- row_delta r')); [discriminate|lia].
Qed.

Lemma ranked_keys rk rows :
  NoDup (map row_key rows) ->
  NoDup (map row_key (map snd (firstn 3 (sort_desc rk (by_key rows)))))
  /\ length (map row_key (map snd (firstn 3 (sort_desc rk (by_key rows)))))
     = Nat.min 3 (length rows)
  /\ incl (map row_key (map snd (firstn 3 (sort_desc rk (by_key rows))))) (map row_key rows).
Proof.
  intros Hn.
  assert (E : map row_key (map snd (firstn 3 (sort_desc rk (by_key rows))))
              = map fst (firstn 3 (sort_desc rk (by_key rows)))).
  { rewrite map_map. apply map_ext_in. intros [k r] Hin. simpl.
    apply in_firstn_in, (Permutation_in _ (sort_desc_perm rk _)) in Hin.
    unfold by_key in Hin. apply in_map_iff in Hin as [r0 [E _]]. congruence. }
  rewrite E, <- firstn_map.
  pose proof (Permutation_map fst (sort_desc_perm rk (by_key rows))) as P.
  rewrite by_key_fst in P. split; [|split].
  - apply nodup_firstn. apply (Permutation_NoDup (Permutation_sym P)), Hn.
  - rewrite length_firstn, (Permutation_length P), length_map. reflexivity.
  - intros k Hk. apply (Permutation_in _ P), (in_firstn_in 3), Hk.
Qed.

(** Lines 259-264: with one to five comparison rows, some group is
    reported both among the three largest and among the three smallest
    changes. *)
Theorem top3_bottom3_overlap prev curr :
  (1 <= length (compare_groups prev curr) <= 5)%nat ->
  exists k, In k (map row_key (top3 (compare_groups prev curr)))
         /\ In k (map row_key (bottom3 (compare_groups prev curr))).
Proof.
  intros Hl. set (rows := compare_groups prev curr).
  assert (Hn : NoDup (map row_key rows)) by apply compare_keys_nodup.
  unfold top3, bottom3.
  destruct (ranked_keys (fun r => Some (row_delta r)) rows Hn) as [N1 [L1 I1]].
  destruct (ranked_keys (fun r => Some (- row_delta r)) rows Hn) as [N2 [L2 I2]].
  set (K1 := map row_key (map snd (firstn 3 (sort_desc (fun r => Some (row_delta r)) (by_key rows))))) in *.
  set (K2 := map row_key (map snd (firstn 3 (sort_desc (fun r => Some (- row_delta r)) (by_key rows))))) in *.
  destruct (existsb (key_in K2) K1) eqn:E.
  - apply existsb_exists in E as [k [H1 H2]]. exists k. split; [exact H1 | apply key_in_iff, H2].
  - exfalso.
    assert (D : NoDup (K1 ++ K2)).
    { apply NoDup_app; [exact N1 | exact N2|]. intros k H1 H2.
      assert (T : existsb (key_in K2) K1 = true)
        by (apply existsb_exists; exists k; split; [exact H1 | apply key_in_iff, H2]).
      congruence. }
    assert (I : incl (K1 ++ K2) (map row_key rows)) by (apply incl_app; assumption).
    apply (NoDup_incl_length D) in I. rewrite length_app, L1, L2, length_map in I.
    fold rows in Hl. lia.
Qed.

(** ** Loader columns *)

Lemma has_col_get t c : has_col t c = true -> exists v, get_col t c = Some v.
Proof.
  unfold has_col, get_col. intros H.
  destruct (find (fun p => String.eqb (fst p) c) (columns t)) as [[k v]|] eqn:E.
  - exists v. reflexivity.
  - exfalso. apply existsb_exists in H as [p [Hp Hc]].
    rewrite (find_none _ _ E p Hp) in Hc. discriminate.
Qed.

Lemma fill_required_has cols label t t' c :
  fill_required cols label t = Some t' -> In c cols ->
  c <> col_branch -> c <> col_month -> has_col t c = true.
Proof.
  intros F Hin Hb Hm. destruct (has_col t c) eqn:H; [reflexivity|].
  assert (N : fill_required cols label t = None) by (apply fill_required_none; exists c; auto).
  congruence.
Qed.

(** Lines 44-74: a successful load keeps the number of rows, replaces
    실판매금액 by its cleaned amounts, sets 분류그룹 to the group key of each
    분류명, and leaves every other column but 지점명 and 월 as read. *)
Theorem load_preprocess_columns ext df label t :
  load_and_preprocess ext df label = Some t ->
  nrows t = nrows df
  /\ (exists a, get_col df col_amount = Some a
        /\ get_col t col_amount = Some (map clean_price a))
  /\ (exists cats, get_col df col_category = Some cats
        /\ get_col t col_group = Some (map (fun x => PStr (extract_paren x)) cats))
  /\ (forall c, ~ In c [col_amount; col_group; col_branch; col_month] ->
        get_col t c = get_col df c).
Proof.
  unfold load_and_preprocess. destruct (supported_ext ext); [|discriminate].
  unfold preprocess. destruct (fill_required required_cols label df) as [t1|] eqn:F;
    [|discriminate].
  intros H. injection H as <-.
  assert (G : forall c, c <> col_branch -> c <> col_month -> get_col t1 c = get_col df c).
  { intros c Hb Hm. destruct (fill_required_get _ _ _ _ c F) as [_ ->].
    destruct (has_col df c); [reflexivity|].
    rewrite (proj2 (String.eqb_neq c col_branch) Hb), (proj2 (String.eqb_neq c col_month) Hm).
    rewrite !andb_false_r. reflexivity. }
  assert (Ha : has_col df col_amount = true)
    by (eapply fill_required_has; [exact F | simpl; tauto | discriminate | discriminate]).
  assert (Hc : has_col df col_category = true)
    by (eapply fill_required_has; [exact F | simpl; tauto | discriminate | discriminate]).
  destruct (has_col_get _ _ Ha) as [a Ea]. destruct (has_col_get _ _ Hc) as [cats Ec].
  split; [|split; [|split]].
  - rewrite !nrows_set_col. apply (fill_required_get _ _ _ _ col_amount F).
  - exists a. split; [exact Ea|].
    rewrite !get_col_set_col. simpl.
    rewrite G by discriminate. rewrite Ea. reflexivity.
  - exists cats. split; [exact Ec|].
    rewrite !get_col_set_col. simpl.
    rewrite !G by discriminate. rewrite Ec. reflexivity.
  - intros c Hc'.
    assert (Ng : c <> col_group) by (intros ->; apply Hc'; simpl; auto).
    assert (Na : c <> col_amount) by (intros ->; apply Hc'; simpl; auto).
    assert (Nb : c <> col_branch) by (intros ->; apply Hc'; simpl; auto 6).
    assert (Nm : c <> col_month) by (intros ->; apply Hc'; simpl; auto 6).
    rewrite !get_col_set_col, (proj2 (String.eqb_neq c col_group) Ng),
      (proj2 (String.eqb_neq c col_amount) Na).
    apply G; assumption.
Qed.

(** ** Key extractors *)

Lemma paren_search_none s :
  any_char (fun c => Ascii.eqb c "(") s = false -> paren_search s = None.
Proof.
  induction s as [|c s IH]; [reflexivity|]. simpl. intros H.
  apply orb_false_iff in H as [Hc Hs]. rewrite Hc. apply IH, Hs.
Qed.

(** Lines 69-71: a value whose text has no "(" gets the group key 기타. *)
Theorem extract_paren_no_open x :
  any_char (fun c => Ascii.eqb c "(") (py_str x) = false -> extract_paren x = other.
Proof. intros H. unfold extract_paren. rewrite paren_search_none by exact H. reflexivity. Qed.

Lemma take_not_close_app g r :
  all_chars (fun c => negb (Ascii.eqb c ")")) g = true ->
  take_not_close (g ++ String ")" r) = g.
Proof.
  induction g as [|c g IH]; [reflexivity|]. simpl. intros H.
  apply andb_true_iff in H as [Hc Hg]. apply negb_true_iff in Hc.
  rewrite Hc, IH by exact Hg. reflexivity.
Qed.

Lemma get_length_app g c r : String.get (String.length g) (g ++ String c r) = Some c.
Proof. induction g as [|d g IH]; [reflexivity|]. exact IH. Qed.

Lemma paren_search_skip p s :
  all_chars (fun c => negb (Ascii.eqb c "(")) p = true ->
  paren_search (p ++ s) = paren_search s.
Proof.
  induction p as [|c p IH]; [reflexivity|]. simpl. intros H.
  apply andb_true_iff in H as [Hc Hp]. apply negb_true_iff in Hc.
  rewrite Hc. apply IH, Hp.
Qed.

(** Lines 69-71: the group key is the stripped text between the first "("
    and the next ")", when that text is not empty. *)
Theorem extract_paren_first p g r :
  all_chars (fun c => negb (Ascii.eqb c "(")) p = true ->
  g <> EmptyString ->
  all_chars (fun c => negb (Ascii.eqb c ")")) g = true ->
  extract_paren (PStr (p ++ String "(" (g ++ String ")" r))) = strip g.
Proof.
  intros Hp Hg Hc. unfold extract_paren. simpl py_str.
  rewrite paren_search_skip by exact Hp.
  simpl. rewrite take_not_close_app by exact Hc.
  destruct g as [|d g']; [contradiction|].
  rewrite get_length_app. reflexivity.
Qed.

Lemma take_not_open_app p r :
  all_chars (fun c => negb (Ascii.eqb c "(")) p = true ->
  (r = EmptyString \/ exists r', r = String "(" r') ->
  take_not_open (p ++ r) = p.
Proof.
  intros Hp Hr. induction p as [|c p IH]; simpl.
  - destruct Hr as [->|[r' ->]]; reflexivity.
  - simpl in Hp. apply andb_true_iff in Hp as [Hc Hp]. apply negb_true_iff in Hc.
    rewrite Hc, IH by exact Hp. reflexivity.
Qed.

Lemma append_empty_r s : (s ++ EmptyString)%string = s.
Proof. induction s as [|c s IH]; simpl; [reflexivity|now rewrite IH]. Qed.

Lemma strip_nonblank_cps s :
  strip s <> EmptyString -> existsb (fun u => negb (is_space u)) (decode s) = true.
Proof.
  intros H. apply strip_by_nonblank_inv. intros E. apply H. unfold strip. rewrite E. reflexivity.
Qed.

(** A text that is not blank stays so when a part starting with "(" is
    appended. *)
Lemma strip_app_nonblank p r :
  strip p <> EmptyString ->
  (r = EmptyString \/ exists r', r = String "(" r') ->
  strip (p ++ r) <> EmptyString.
Proof.
  intros Hp Hr. destruct Hr as [->|[r' ->]]; [rewrite append_empty_r; exact Hp|].
  apply strip_nonblank_cps in Hp. unfold strip.
  rewrite (decode_app_ascii "(" r' eq_refl p).
  apply encode_nonempty, strip_by_nonblank. rewrite existsb_app, Hp. reflexivity.
Qed.

(** Lines 194-199: a value whose text has a non-blank part before its first
    "(" (or no "(" at all) gets that part, stripped, as its prefix key. *)
Theorem extract_prefix_nonblank p r :
  all_chars (fun c => negb (Ascii.eqb c "(")) p = true ->
  strip p <> EmptyString ->
  (r = EmptyString \/ exists r', r = String "(" r') ->
  extract_prefix (PStr (p ++ r)) = strip p.
Proof.
  intros Hp Hw Hr. unfold extract_prefix. simpl is_na. simpl py_str.
  rewrite (proj2 (String.eqb_neq _ _) (strip_app_nonblank p r Hw Hr)).
  simpl. rewrite take_not_open_app by assumption.
  destruct p as [|c p']; [exfalso; apply Hw; reflexivity|]. reflexivity.
Qed.

(** Lines 138 and 140-141: [groupby(...).sum()] has strictly increasing
    keys, one per key of the rows, each with the sum of that key's
    amounts. *)
Theorem groupby_sum_entries rows :
  StronglySorted key_lt (groupby_sum rows)
  /\ forall k v, In (k, v) (groupby_sum rows) <-> In k (map fst rows) /\ v = sum_key k rows.
Proof.
  split; [apply groupby_sum_sorted|]. intros k v. split.
  - intros H. split; [apply groupby_sum_keys, (in_keys _ _ _ H)|].
    rewrite <- groupby_sum_key. symmetry. apply sum_key_sorted_in; [apply groupby_sum_sorted | exact H].
  - intros [Hk ->]. apply groupby_sum_keys, in_map_iff in Hk as [[k' v'] [E H]].
    simpl in E. subst k'. rewrite <- groupby_sum_key.
    rewrite (sum_key_sorted_in _ _ _ (groupby_sum_sorted rows) H). exact H.
Qed.

(** ** Witnesses *)

Ltac in_list := vm_compute; repeat (first [left; reflexivity | right]).


Lemma top10_groups_ranked_witness :
  In "k0" (top10_groups prev_with_x curr_without_x)
  /\ ~ In "x" (top10_groups prev_with_x curr_without_x)
  /\ In ("x", None) (series_add (groupby_sum prev_with_x) (groupby_sum curr_without_x))
  /\ exists v, In ("k0", v) (series_add (groupby_sum prev_with_x) (groupby_sum curr_without_x))
    /\ rank_geq v None = true.
Proof.
  assert (H : In "k0" (top10_groups prev_with_x curr_without_x)) by in_list.
  assert (Hx : ~ In "x" (top10_groups prev_with_x curr_without_x)).
  { intros C. apply key_in_iff in C. vm_compute in C. discriminate C. }
  assert (Hg : In ("x", None) (series_add (groupby_sum prev_with_x) (groupby_sum curr_without_x)))
    by in_list.
  split; [exact H|]. split; [exact Hx|]. split; [exact Hg|].
  destruct (top10_groups_ranked prev_with_x curr_without_x "k0" H) as [v [Hv R]].
  exists v. split; [exact Hv | exact (R "x" None Hg Hx)].
Defined.

Lemma compare_rows_period_totals_witness :
  let r := hd (mk_row "" 0 0 0 0) (compare_groups sample_prev sample_curr) in
  In r (compare_groups sample_prev sample_curr)
  /\ In (row_key r) (top10_groups sample_prev sample_curr)
  /\ row_curr r = sum_key (row_key r) sample_curr
  /\ row_prev r = sum_key (row_key r) sample_prev.
Proof.
  intros r. assert (H : In r (compare_groups sample_prev sample_curr)) by (left; reflexivity).
  split; [exact H | exact (compare_rows_period_totals _ _ r H)].
Defined.

Lemma trend_word_matches_rate_witness :
  0 < 170 /\ (trend_word 170 190 = "증가" <-> (0 < diff_rate 170 190)%Q).
Proof.
  assert (H : 0 < 170) by lia. split; [exact H | exact (trend_word_matches_rate 170 190 H)].
Defined.

Lemma top3_largest_witness :
  let rows := compare_groups sample_prev sample_curr in
  let r := nth 0 rows (mk_row "" 0 0 0 0) in
  let r' := nth 1 rows (mk_row "" 0 0 0 0) in
  In r (top3 rows) /\ In r' rows /\ ~ In r' (top3 rows) /\ row_delta r' <= row_delta r.
Proof.
  intros rows r r'.
  assert (H1 : In r (top3 rows)) by in_list.
  assert (H2 : In r' rows) by in_list.
  assert (H3 : ~ In r' (top3 rows)) by (vm_compute; intros [H|[H|[H|[]]]]; discriminate).
  split; [exact H1 | split; [exact H2 | split; [exact H3 | exact (top3_largest rows r r' H1 H2 H3)]]].
Defined.

Lemma bottom3_smallest_witness :
  let rows := compare_groups sample_prev sample_curr in
  let r := nth 1 rows (mk_row "" 0 0 0 0) in
  let r' := nth 3 rows (mk_row "" 0 0 0 0) in
  In r (bottom3 rows) /\ In r' rows /\ ~ In r' (bottom3 rows) /\ row_delta r <= row_delta r'.
Proof.
  intros rows r r'.
  assert (H1 : In r (bottom3 rows)) by in_list.
  assert (H2 : In r' rows) by in_list.
  assert (H3 : ~ In r' (bottom3 rows)) by (vm_compute; intros [H|[H|[H|[]]]]; discriminate).
  split; [exact H1 | split; [exact H2 | split; [exact H3 | exact (bottom3_smallest rows r r' H1 H2 H3)]]].
Defined.

Lemma top3_bottom3_overlap_witness :
  (1 <= length (compare_groups sample_prev sample_curr) <= 5)%nat
  /\ exists k, In k (map row_key (top3 (compare_groups sample_prev sample_curr)))
         /\ In k (map row_key (bottom3 (compare_groups sample_prev sample_curr))).
Proof.
  assert (H : (1 <= length (compare_groups sample_prev sample_curr) <= 5)%nat) by (vm_compute; lia).
  split; [exact H | exact (top3_bottom3_overlap sample_prev sample_curr H)].
Defined.

Lemma load_preprocess_columns_witness :
  exists t, load_and_preprocess ".csv" sample_table "전달" = Some t
  /\ (nrows t = nrows sample_table
      /\ (exists a, get_col sample_table col_amount = Some a
            /\ get_col t col_amount = Some (map clean_price a))
      /\ (exists cats, get_col sample_table col_category = Some cats
            /\ get_col t col_group = Some (map (fun x => PStr (extract_paren x)) cats))
      /\ (forall c, ~ In c [col_amount; col_group; col_branch; col_month] ->
            get_col t c = get_col sample_table c)).
Proof.
  destruct (load_and_preprocess ".csv" sample_table "전달") as [t|] eqn:E.
  - exists t. split; [reflexivity | exact (load_preprocess_columns _ _ _ t E)].
  - vm_compute in E. discriminate.
Defined.

Lemma extract_paren_no_open_witness :
  any_char (fun c => Ascii.eqb c "(") (py_str (PStr "Tea")) = false
  /\ extract_paren (PStr "Tea") = other.
Proof.
  assert (H : any_char (fun c => Ascii.eqb c "(") (py_str (PStr "Tea")) = false) by reflexivity.
  split; [exact H | exact (extract_paren_no_open _ H)].
Defined.

Lemma extract_paren_first_witness :
  all_chars (fun c => negb (Ascii.eqb c "(")) "Snacks " = true
  /\ " Import " <> EmptyString
  /\ all_chars (fun c => negb (Ascii.eqb c ")")) " Import " = true
  /\ extract_paren (PStr ("Snacks " ++ String "(" (" Import " ++ String ")" " x")))
     = strip " Import ".
Proof.
  assert (H1 : all_chars (fun c => negb (Ascii.eqb c "(")) "Snacks " = true) by reflexivity.
  assert (H2 : " Import " <> EmptyString) by discriminate.
  assert (H3 : all_chars (fun c => negb (Ascii.eqb c ")")) " Import " = true) by reflexivity.
  split; [exact H1 | split; [exact H2 | split; [exact H3 |]]].
  exact (extract_paren_first _ _ " x" H1 H2 H3).
Defined.

Lemma extract_prefix_nonblank_witness :
  all_chars (fun c => negb (Ascii.eqb c "(")) "Snacks　" = true
  /\ strip "Snacks　" <> EmptyString
  /\ ("(Import)" = EmptyString \/ exists r', "(Import)" = String "(" r')
  /\ extract_prefix (PStr ("Snacks　" ++ "(Import)")) = strip "Snacks　"
  /\ strip "Snacks　" = "Snacks".
Proof.
  assert (H1 : all_chars (fun c => negb (Ascii.eqb c "(")) "Snacks　" = true) by reflexivity.
  assert (H2 : strip "Snacks　" <> EmptyString) by (vm_compute; discriminate).
  assert (H3 : "(Import)" = EmptyString \/ exists r', "(Import)" = String "(" r')
    by (right; exists "Import)"; reflexivity).
  split; [exact H1 | split; [exact H2 | split; [exact H3 | split]]].
  - exact (extract_prefix_nonblank _ _ H1 H2 H3).
  - vm_compute. reflexivity.
Defined.
